(** * ReadDepthCalculator: a shallow embedding and its specification

    The Python class [ReadDepthCalculator] (src/ReadDepthCalculator.py) keeps
    three lists (reads, loci, depths) and computes the read depth of every
    genomic position by a delta array followed by a running sum.

    Python lists are mutable objects that several names may refer to, so the
    embedding keeps them in a store indexed by locations; an instance is an
    object holding three locations.  Python integers are unbounded: they are
    [Z].  The only exception the modelled code can raise is [IndexError]. *)

From stdpp Require Import base numbers option list sorting gmap strings.

Local Open Scope Z_scope.

(** ** Outcomes of Python computations *)

Inductive exn := IndexError.

(** [Stuck] is not a Python behaviour: it marks a store that no Python
    execution produces (a name bound to no object). *)
Inductive outcome (A : Type) :=
  | Return (a : A)
  | Raise (e : exn)
  | Stuck.
Arguments Return {A} a.
Arguments Raise {A} e.
Arguments Stuck {A}.

#[global] Instance outcome_ret : MRet outcome := λ A a, Return a.
#[global] Instance outcome_bind : MBind outcome := λ A B k m,
  match m with
  | Return a => k a
  | Raise e => Raise e
  | Stuck => Stuck
  end.

(** ** Python list indexing

    [l[i]] with [0 <= i < len(l)] is the [i]-th element, with
    [-len(l) <= i < 0] it is the element [len(l) + i], and any other index
    raises [IndexError]. *)

Definition py_index (n : nat) (i : Z) : option nat :=
  if bool_decide (0 ≤ i < Z.of_nat n) then Some (Z.to_nat i)
  else if bool_decide (- Z.of_nat n ≤ i < 0) then Some (Z.to_nat (Z.of_nat n + i))
  else None.

Definition py_getitem (l : list Z) (i : Z) : outcome Z :=
  match py_index (length l) i with
  | Some k => match l !! k with Some x => Return x | None => Raise IndexError end
  | None => Raise IndexError
  end.

Definition py_setitem (l : list Z) (i : Z) (v : Z) : outcome (list Z) :=
  match py_index (length l) i with
  | Some k => Return (<[k := v]> l)
  | None => Raise IndexError
  end.

(** [l[i] += d] reads the element and stores it back. *)
Definition py_iadd (l : list Z) (i : Z) (d : Z) : outcome (list Z) :=
  x ← py_getitem l i; py_setitem l i (x + d).

(** ** Reads and their ordering *)

Abbreviation read := (Z * Z)%type.

(** The key [itemgetter(0,1)] is the pair itself; Python compares tuples
    lexicographically. *)
Definition key_lt (a b : read) : bool :=
  (a.1 <? b.1) || ((a.1 =? b.1) && (a.2 <? b.2)).

Definition key_le (a b : read) : Prop :=
  a.1 < b.1 ∨ (a.1 = b.1 ∧ a.2 ≤ b.2).

(** [list.sort] is a stable sort: an element is placed after the elements
    that are smaller and before the ones it is not greater than. *)
Fixpoint sort_insert (x : read) (l : list read) : list read :=
  match l with
  | [] => [x]
  | y :: l' => if key_lt y x then y :: sort_insert x l' else x :: y :: l'
  end.

Fixpoint sort_reads (l : list read) : list read :=
  match l with
  | [] => []
  | x :: l' => sort_insert x (sort_reads l')
  end.

(** ** The store *)

Abbreviation loc := nat (only parsing).

Record engine := Engine { reads : loc; loci : loc; depths : loc }.

Record state := State {
  objs : gmap nat engine;
  rlists : gmap nat (list read);
  ilists : gmap nat (list Z)
}.

Definition M (A : Type) : Type := state → outcome A * state.

#[global] Instance M_ret : MRet M := λ A a st, (Return a, st).
#[global] Instance M_bind : MBind M := λ A B k m st,
  match m st with
  | (Return a, st') => k a st'
  | (Raise e, st') => (Raise e, st')
  | (Stuck, st') => (Stuck, st')
  end.

Definition lift {A} (o : outcome A) : M A := λ st, (o, st).

Definition getattr (self : loc) : M engine := λ st,
  match objs st !! self with
  | Some e => (Return e, st)
  | None => (Stuck, st)
  end.

Definition set_depths (self : loc) (d : loc) : M unit := λ st,
  match objs st !! self with
  | Some e =>
      (Return tt,
       State (<[self := Engine (reads e) (loci e) d]> (objs st)) (rlists st) (ilists st))
  | None => (Stuck, st)
  end.

Definition new_object (e : engine) : M loc := λ st,
  let l := fresh (dom (objs st)) in
  (Return l, State (<[l := e]> (objs st)) (rlists st) (ilists st)).

Definition load_reads (l : loc) : M (list read) := λ st,
  match rlists st !! l with
  | Some v => (Return v, st)
  | None => (Stuck, st)
  end.

Definition store_reads (l : loc) (v : list read) : M unit := λ st,
  match rlists st !! l with
  | Some _ => (Return tt, State (objs st) (<[l := v]> (rlists st)) (ilists st))
  | None => (Stuck, st)
  end.

Definition new_reads (v : list read) : M loc := λ st,
  let l := fresh (dom (rlists st)) in
  (Return l, State (objs st) (<[l := v]> (rlists st)) (ilists st)).

Definition load_ints (l : loc) : M (list Z) := λ st,
  match ilists st !! l with
  | Some v => (Return v, st)
  | None => (Stuck, st)
  end.

Definition store_ints (l : loc) (v : list Z) : M unit := λ st,
  match ilists st !! l with
  | Some _ => (Return tt, State (objs st) (rlists st) (<[l := v]> (ilists st)))
  | None => (Stuck, st)
  end.

Definition new_ints (v : list Z) : M loc := λ st,
  let l := fresh (dom (ilists st)) in
  (Return l, State (objs st) (rlists st) (<[l := v]> (ilists st))).

(** ** The class *)

(** The two default arguments [reads=[]] and [loci=[]] are evaluated once,
    when the [def] statement runs: each is one list object.  [class_defined]
    is the store after the class statement. *)
Definition default_reads : loc := 0%nat.
Definition default_loci : loc := 0%nat.

Definition class_defined : state :=
  State ∅ {[ default_reads := [] ]} {[ default_loci := [] ]}.

(** [ReadDepthCalculator(reads, loci)]: [None] stands for an omitted
    argument.  The result is the new instance. *)
Definition __init__ (reads_arg loci_arg : option loc) : M loc :=
  d ← new_ints [];
  new_object (Engine (default default_reads reads_arg)
                     (default default_loci loci_arg) d).

(** [self.reads += readslist] extends the list object in place. *)
Definition addReads (self : loc) (readslist : list read) : M unit :=
  e ← getattr self;
  l ← load_reads (reads e);
  store_reads (reads e) (l ++ readslist).

Definition addLoci (self : loc) (locilist : list Z) : M unit :=
  e ← getattr self;
  l ← load_ints (loci e);
  store_ints (loci e) (l ++ locilist).

Definition getReads (self : loc) : M loc := e ← getattr self; mret (reads e).
Definition getLoci (self : loc) : M loc := e ← getattr self; mret (loci e).
Definition getDepths (self : loc) : M loc := e ← getattr self; mret (depths e).

Definition preprocessReadData (self : loc) : M unit :=
  e ← getattr self;
  l ← load_reads (reads e);
  store_reads (reads e) (sort_reads l).

(** One iteration of the loop of [__getMaxPosition]. *)
Definition max_step (maximum : Z) (pr : read) : Z :=
  if bool_decide (pr.1 + pr.2 > maximum) then pr.1 + pr.2 else maximum.

Definition __getMaxPosition (rs : list read) : Z := foldl max_step 0 rs.

(** The loop [for pair in self.reads] over the delta array. *)
Fixpoint tally_loop (rs : list read) (tally : list Z) : outcome (list Z) :=
  match rs with
  | [] => Return tally
  | pr :: rest =>
      tally ← py_iadd tally pr.1 1;
      tally ← py_iadd tally (pr.1 + pr.2) (-1);
      tally_loop rest tally
  end.

(** The loop [for i in range(len(tally))].  [sums] and [tally] name the same
    list, so the running sum overwrites the delta array. *)
Fixpoint sum_loop (range : list nat) (tally : list Z) (prior : Z)
  : outcome (list Z) :=
  match range with
  | [] => Return tally
  | i :: rest =>
      x ← py_getitem tally (Z.of_nat i);
      sums ← py_setitem tally (Z.of_nat i) (x + prior);
      prior ← py_getitem sums (Z.of_nat i);
      sum_loop rest sums prior
  end.

(** The local part of [calculateDepth]: from the sorted reads to [sums]. *)
Definition accumulate (rs : list read) : outcome (list Z) :=
  let tally := replicate (Z.to_nat (__getMaxPosition rs + 1)) 0 in
  tally ← tally_loop rs tally;
  sum_loop (seq 0 (length tally)) tally 0.

(** The list made by [[0] * n] is reachable from the local names [tally]
    and [sums] only, until the last statement binds it to [self.depths]:
    it enters the store there.  When a loop raises, the reads have been
    sorted and nothing else has happened. *)
Definition calculateDepth (self : loc) : M unit :=
  preprocessReadData self;;
  e ← getattr self;
  rs ← load_reads (reads e);
  sums ← lift (accumulate rs);
  d ← new_ints sums;
  set_depths self d.

(** [self.depths[locus]], as in [populateLociCSVDepthField] and
    [rdc.getDepths()[l]]. *)
Definition depthAt (self : loc) (locus : Z) : M Z :=
  d ← getDepths self;
  l ← load_ints d;
  lift (py_getitem l locus).

(** ** Observations of the store *)

Definition reads_of (st : state) (self : loc) : option (list read) :=
  e ← objs st !! self; rlists st !! reads e.

Definition depths_of (st : state) (self : loc) : option (list Z) :=
  e ← objs st !! self; ilists st !! depths e.

Definition loci_of (st : state) (self : loc) : option (list Z) :=
  e ← objs st !! self; ilists st !! loci e.

(** ** Building an instance

    [ReadDepthCalculator(rs, ls)] on two new lists, as src/test.py builds
    its instances, run on the store the class statement leaves. *)
Definition construct (rs : list read) (ls : list Z) : M loc :=
  r ← new_reads rs; l ← new_ints ls; __init__ (Some r) (Some l).

Definition state_after {A} (m : M A) : state := (m class_defined).2.
Definition outcome_of {A} (m : M A) : outcome A := (m class_defined).1.

(** The methods a caller can use on an instance before it computes depths. *)
Inductive call :=
  | AddReads (readslist : list read)
  | AddLoci (locilist : list Z)
  | PreprocessReadData.

Definition do_call (self : loc) (c : call) : M unit :=
  match c with
  | AddReads readslist => addReads self readslist
  | AddLoci locilist => addLoci self locilist
  | PreprocessReadData => preprocessReadData self
  end.

(** The store after a sequence of calls; a call that fails is skipped, as
    by a caller that catches the exception. *)
Definition do_calls (self : loc) (cs : list call) (st : state) : state :=
  foldl (λ st c, (do_call self c st).2) st cs.

(** ** Quantities the properties are stated with *)

(** An instance on which [calculateDepth] has not run holds the empty list
    it was built with, distinct from its loci. *)
Definition unstarted (st : state) (self : loc) : Prop :=
  ∃ e, objs st !! self = Some e ∧ ilists st !! depths e = Some [] ∧
       loci e ≠ depths e.

(** The subscripts of the two loops, in program order. *)
Definition tally_subscripts (rs : list read) : list Z :=
  rs ≫= λ pr, [pr.1; pr.1 + pr.2].

Definition sum_subscripts (n : nat) : list Z := Z.of_nat <$> seq 0 n.

(** What the first loop adds at position [q] of an array of length [n]. *)
Definition delta1 (n : nat) (pr : read) (q : nat) : Z :=
  (if bool_decide (py_index n pr.1 = Some q) then 1 else 0)
  - (if bool_decide (py_index n (pr.1 + pr.2) = Some q) then 1 else 0).

Fixpoint delta_at (n : nat) (rs : list read) (q : nat) : Z :=
  match rs with
  | [] => 0
  | pr :: rest => delta1 n pr q + delta_at n rest q
  end.

(** The running sum as a function of the delta array, to be compared with
    [sum_loop]. *)
Fixpoint prefix_sums (prior : Z) (l : list Z) : list Z :=
  match l with
  | [] => []
  | x :: l' => (x + prior) :: prefix_sums (x + prior) l'
  end.

(** [sum_upto f k] is [f 0 + ... + f (k-1)]. *)
Fixpoint sum_upto (f : nat → Z) (k : nat) : Z :=
  match k with
  | O => 0
  | S k' => sum_upto f k' + f k'
  end.

Definition nonneg (pr : read) : Prop := 0 ≤ pr.1 ∧ 0 ≤ pr.2.

#[global] Instance nonneg_dec pr : Decision (nonneg pr).
Proof. unfold nonneg. apply _. Defined.

Definition max_end (pr : read) (m : Z) : Z := Z.max (pr.1 + pr.2) m.

(** The maximum of [start + length] over all intervals, or [0] if there is
    none: the specification's [maxEnd], to be compared with
    [__getMaxPosition]. *)
Definition maxEnd (rs : list read) : Z :=
  match rs with
  | [] => 0
  | pr :: rest => foldr max_end (pr.1 + pr.2) rest
  end.

(** The brute-force count: the intervals [(s, l)] with [s <= p < s + l]. *)
Definition covers (p : Z) (pr : read) : Prop := pr.1 ≤ p < pr.1 + pr.2.

#[global] Instance covers_dec p pr : Decision (covers p pr).
Proof. unfold covers. apply _. Defined.

Definition coverage (rs : list read) (p : Z) : Z :=
  Z.of_nat (length (filter (covers p) rs)).

(** ** The methods that read and write CSV files

    A file that is read is given by [list(reader)], the rows that
    [csv.reader] yields, each a list of strings (a blank line yields the
    empty row).  A file that is written is given by the rows handed to
    [writer.writerow], in order.  Whether a file can be opened is outside
    the model. *)

Inductive file_exn :=
  | Subscript (e : exn)
  | ValueError.

Inductive file_outcome (A : Type) :=
  | FReturn (a : A)
  | FRaise (e : file_exn)
  | FStuck.
Arguments FReturn {A} a.
Arguments FRaise {A} e.
Arguments FStuck {A}.

#[global] Instance file_outcome_ret : MRet file_outcome := λ A a, FReturn a.
#[global] Instance file_outcome_bind : MBind file_outcome := λ A B k m,
  match m with
  | FReturn a => k a
  | FRaise e => FRaise e
  | FStuck => FStuck
  end.

Definition of_outcome {A} (o : outcome A) : file_outcome A :=
  match o with
  | Return a => FReturn a
  | Raise e => FRaise (Subscript e)
  | Stuck => FStuck
  end.

(** [row[i]] on a row of strings. *)
Definition py_item {A} (l : list A) (i : Z) : outcome A :=
  match py_index (length l) i with
  | Some k => match l !! k with Some x => Return x | None => Raise IndexError end
  | None => Raise IndexError
  end.

(** What [writer.writerow] is given: strings and integers. *)
Inductive cell :=
  | Text (s : string)
  | Number (z : Z).

(** The loop of [outputAllDepthsToCSV]; [written] is the file so far. *)
Fixpoint write_depths (range : list nat) (depths : list Z)
    (written : list (list cell)) : outcome unit * list (list cell) :=
  match range with
  | [] => (Return tt, written)
  | i :: rest =>
      match py_getitem depths (Z.of_nat i) with
      | Return x =>
          write_depths rest depths (written ++ [[Number (Z.of_nat i); Number x]])
      | Raise e => (Raise e, written)
      | Stuck => (Stuck, written)
      end
  end.

(** The result is the outcome and the file [filename] after the call: it
    is opened with mode ['w'], so it starts empty. *)
Definition outputAllDepthsToCSV (self : loc) (st : state)
  : outcome unit * list (list cell) :=
  match objs st !! self with
  | Some e =>
      match ilists st !! depths e with
      | Some d => write_depths (seq 0 (length d)) d []
      | None => (Stuck, [])
      end
  | None => (Stuck, [])
  end.

(** The loop of [populateLociCSVDepthField] over [rows]. *)
Fixpoint write_loci (rows : list (Z * Z)) (depths : list Z)
    (written : list (list cell)) : outcome unit * list (list cell) :=
  match rows with
  | [] => (Return tt, written)
  | row :: rest =>
      match py_getitem depths row.1 with
      | Return x => write_loci rest depths (written ++ [[Number row.1; Number x]])
      | Raise e => (Raise e, written)
      | Stuck => (Stuck, written)
      end
  end.

Definition loci_header : list cell := [Text "position"; Text "coverage"].

(** The row [[row[0], self.depths[row[0]]]] of a locus and its depth. *)
Definition locus_line (z x : Z) : list cell := [Number z; Number x].

Section csv_methods.
(** [int(s)] on a string; [None] stands for [ValueError]. *)
Variable int : string → option Z.

Definition py_int (s : string) : file_outcome Z :=
  match int s with
  | Some z => FReturn z
  | None => FRaise ValueError
  end.

(** [(int(row[0]), int(row[1]))] *)
Definition read_of_row (row : list string) : file_outcome read :=
  c ← of_outcome (py_item row 0);
  s ← py_int c;
  c ← of_outcome (py_item row 1);
  l ← py_int c;
  mret (s, l).

(** [int(row[0])] *)
Definition locus_of_row (row : list string) : file_outcome Z :=
  c ← of_outcome (py_item row 0); py_int c.

(** [[f(row) for row in rows]]: the first row that raises ends the
    comprehension. *)
Fixpoint comprehension {A B} (f : A → file_outcome B) (rows : list A)
  : file_outcome (list B) :=
  match rows with
  | [] => FReturn []
  | row :: rest =>
      y ← f row; ys ← comprehension f rest; mret (y :: ys)
  end.

(** [list(reader)[1:]] is [drop 1 file]. *)
Definition addReadsFromCSV (self : loc) (file : list (list string))
  : state → file_outcome unit * state := λ st,
  match comprehension read_of_row (drop 1 file) with
  | FReturn rows => let '(o, st') := addReads self rows st in (of_outcome o, st')
  | FRaise e => (FRaise e, st)
  | FStuck => (FStuck, st)
  end.

Definition addLociFromCSV (self : loc) (file : list (list string))
  : state → file_outcome unit * state := λ st,
  match comprehension locus_of_row (drop 1 file) with
  | FReturn rows => let '(o, st') := addLoci self rows st in (of_outcome o, st')
  | FRaise e => (FRaise e, st)
  | FStuck => (FStuck, st)
  end.

(** The result is the outcome and the output file after the call: [None]
    when the call ends before the output file is opened, which leaves it as
    it was. *)
Definition populateLociCSVDepthField (self : loc) (input : list (list string))
    (st : state) : file_outcome unit * option (list (list cell)) :=
  match comprehension (λ row, z ← locus_of_row row; mret (z, 0)) (drop 1 input) with
  | FReturn rows =>
      match depths_of st self with
      | Some d =>
          let '(o, written) := write_loci rows d [loci_header] in
          (of_outcome o, Some written)
      | None => (FStuck, Some [loci_header])
      end
  | FRaise e => (FRaise e, None)
  | FStuck => (FStuck, None)
  end.
(** A data row from which no read can be made: fewer than two cells, or a
    first or second cell that [int] rejects. *)
Definition bad_read_row (row : list string) : Prop :=
  (length row < 2)%nat ∨
  (∃ c, row !! 0%nat = Some c ∧ int c = None) ∨
  (∃ c, row !! 1%nat = Some c ∧ int c = None).

Definition bad_locus_row (row : list string) : Prop :=
  row = [] ∨ ∃ c, row !! 0%nat = Some c ∧ int c = None.
End csv_methods.

(** [int] on plain decimal literals with an optional minus sign, to run the
    file methods on examples.  Python's [int] accepts more strings. *)
Definition digit (c : Ascii.ascii) : option Z :=
  let n := Z.of_N (Ascii.N_of_ascii c) in
  if bool_decide (48 ≤ n ≤ 57) then Some (n - 48) else None.

Fixpoint digits (s : string) (acc : Z) : option Z :=
  match s with
  | EmptyString => Some acc
  | String c s' => d ← digit c; digits s' (10 * acc + d)
  end.

Definition int_decimal (s : string) : option Z :=
  match s with
  | EmptyString => None
  | String c s' =>
      if bool_decide (Ascii.N_of_ascii c = 45%N)
      then match s' with EmptyString => None | _ => Z.opp <$> digits s' 0 end
      else digits s 0
  end.

(** The sum of a list of integers, as [sum] and the numerator of [mean]
    compute it. *)
Definition sum_Z (l : list Z) : Z := foldr Z.add 0 l.

(** * Properties *)

(** ** Sorting *)

Section sorting.
Implicit Types (a b c x : read) (l : list read).

Lemma key_lt_true a b : key_lt a b = true ↔ a.1 < b.1 ∨ (a.1 = b.1 ∧ a.2 < b.2).
Proof. unfold key_lt. destruct a, b; simpl. lia. Qed.

Lemma key_lt_false a b : key_lt a b = false → key_le b a.
Proof.
  intros H. unfold key_le.
  destruct (key_lt a b) eqn:E; [done|].
  assert (¬ (a.1 < b.1 ∨ (a.1 = b.1 ∧ a.2 < b.2)))
    by (rewrite <- key_lt_true; congruence).
  lia.
Qed.

Lemma key_lt_le a b : key_lt a b = true → key_le a b.
Proof. rewrite key_lt_true. unfold key_le. lia. Qed.

#[local] Instance key_le_trans : Transitive key_le.
Proof. intros a b c. unfold key_le. lia. Qed.

Lemma sort_insert_Permutation x l : sort_insert x l ≡ₚ x :: l.
Proof.
  induction l as [|y l IH]; simpl; [done|].
  destruct (key_lt y x); [|done].
  rewrite IH. apply Permutation_swap.
Qed.

Lemma sort_reads_Permutation l : sort_reads l ≡ₚ l.
Proof.
  induction l as [|x l IH]; simpl; [done|].
  by rewrite sort_insert_Permutation, IH.
Qed.

Lemma sort_insert_sorted x l :
  StronglySorted key_le l → StronglySorted key_le (sort_insert x l).
Proof.
  induction 1 as [|y l Hl IH Hy]; simpl.
  - repeat constructor.
  - destruct (key_lt y x) eqn:E.
    + constructor; [done|].
      rewrite sort_insert_Permutation. constructor; [by apply key_lt_le|done].
    + apply key_lt_false in E.
      constructor; [by constructor|].
      constructor; [done|].
      eapply Forall_impl; [exact Hy|]. intros z Hz. by etrans.
Qed.

Lemma sort_reads_sorted l : StronglySorted key_le (sort_reads l).
Proof.
  induction l as [|x l IH]; simpl; [constructor|]. by apply sort_insert_sorted.
Qed.

#[local] Instance key_le_antisymm : AntiSymm (=) key_le.
Proof. intros [s1 l1] [s2 l2]. unfold key_le. simpl. intros ??. f_equal; lia. Qed.

(** The key is the whole pair, so the sorted list is unique: every sorting
    algorithm, Python's included, returns [sort_reads l]. *)
Lemma sort_reads_unique l l' :
  StronglySorted key_le l' → l' ≡ₚ l → l' = sort_reads l.
Proof.
  intros Hs Hp. apply (StronglySorted_unique key_le); [done|apply sort_reads_sorted|].
  by rewrite sort_reads_Permutation.
Qed.
End sorting.

(** ** Python indexing *)

Section indexing.
Implicit Types (l t : list Z) (i d : Z) (k q n : nat).

Lemma py_index_lt n i k : py_index n i = Some k → (k < n)%nat.
Proof.
  unfold py_index. repeat case_bool_decide; intros; simplify_eq; lia.
Qed.

Lemma py_index_in_bounds n i : 0 ≤ i < Z.of_nat n → py_index n i = Some (Z.to_nat i).
Proof. intros. unfold py_index. by rewrite bool_decide_eq_true_2. Qed.

Lemma py_index_wraps n i :
  - Z.of_nat n ≤ i < 0 → py_index n i = Some (Z.to_nat (Z.of_nat n + i)).
Proof.
  intros. unfold py_index.
  rewrite bool_decide_eq_false_2 by lia. by rewrite bool_decide_eq_true_2.
Qed.

Lemma py_index_None n i :
  py_index n i = None ↔ i < - Z.of_nat n ∨ Z.of_nat n ≤ i.
Proof. unfold py_index. repeat case_bool_decide; split; (done || lia). Qed.

Lemma py_getitem_Some l i k x :
  py_index (length l) i = Some k → l !! k = Some x → py_getitem l i = Return x.
Proof. unfold py_getitem. by intros -> ->. Qed.

Lemma py_getitem_None l i :
  py_index (length l) i = None → py_getitem l i = Raise IndexError.
Proof. unfold py_getitem. by intros ->. Qed.

Lemma py_iadd_None t i d :
  py_index (length t) i = None → py_iadd t i d = Raise IndexError.
Proof. intros H. unfold py_iadd. by rewrite py_getitem_None. Qed.

(** An in-place addition changes the resolved position only. *)
Lemma py_iadd_Some t i d k :
  py_index (length t) i = Some k →
  ∃ t', py_iadd t i d = Return t' ∧ length t' = length t ∧
        ∀ q, t' !! q = (λ x, x + if bool_decide (q = k) then d else 0) <$> t !! q.
Proof.
  intros Hk. pose proof (py_index_lt _ _ _ Hk) as Hlt.
  destruct (lookup_lt_is_Some_2 t k Hlt) as [x Hx].
  exists (<[k := x + d]> t). split; [|split].
  - unfold py_iadd. rewrite (py_getitem_Some _ _ _ _ Hk Hx). simpl.
    unfold py_setitem. by rewrite Hk.
  - apply length_insert.
  - intros q. case_bool_decide as Hq.
    + subst q. rewrite list_lookup_insert_eq by done. by rewrite Hx.
    + rewrite list_lookup_insert_ne by done.
      destruct (t !! q); simpl; f_equal; lia.
Qed.
End indexing.

(** ** The delta array *)

Section tally.
Implicit Types (rs : list read) (t : list Z).

Lemma tally_loop_Return rs : ∀ t,
  Forall (λ i, is_Some (py_index (length t) i)) (tally_subscripts rs) →
  ∃ t', tally_loop rs t = Return t' ∧ length t' = length t ∧
        ∀ q, t' !! q = (λ x, x + delta_at (length t) rs q) <$> t !! q.
Proof.
  induction rs as [|pr rs IH]; intros t Hsub.
  - exists t. split; [done|]. split; [done|]. intros q. simpl.
    destruct (t !! q); simpl; f_equal; lia.
  - unfold tally_subscripts in Hsub. simpl in Hsub.
    apply Forall_cons in Hsub as [[k1 H1] Hsub].
    apply Forall_cons in Hsub as [[k2 H2] Hsub].
    destruct (py_iadd_Some t pr.1 1 k1 H1) as (t1 & E1 & L1 & V1).
    rewrite <- L1 in H2.
    destruct (py_iadd_Some t1 (pr.1 + pr.2) (-1) k2 H2) as (t2 & E2 & L2 & V2).
    destruct (IH t2) as (t' & E' & L' & V').
    { by rewrite L2, L1. }
    exists t'. split; [|split].
    + simpl. rewrite E1. simpl. rewrite E2. simpl. exact E'.
    + by rewrite L', L2, L1.
    + intros q. rewrite V', V2, V1, L2, L1. rewrite L1 in H2.
      destruct (t !! q); simpl; [|done]. f_equal.
      unfold delta1. rewrite H1, H2.
      repeat case_bool_decide; simplify_eq; lia.
Qed.

Lemma tally_loop_Raise rs : ∀ t,
  Exists (λ i, py_index (length t) i = None) (tally_subscripts rs) →
  tally_loop rs t = Raise IndexError.
Proof.
  induction rs as [|pr rs IH]; intros t Hsub.
  - by apply Exists_nil in Hsub.
  - unfold tally_subscripts in Hsub. simpl in Hsub. simpl.
    destruct (py_index (length t) pr.1) as [k1|] eqn:H1;
      [|by rewrite py_iadd_None].
    destruct (py_iadd_Some t pr.1 1 k1 H1) as (t1 & E1 & L1 & _).
    rewrite E1. simpl.
    destruct (py_index (length t1) (pr.1 + pr.2)) as [k2|] eqn:H2;
      [|by rewrite py_iadd_None].
    destruct (py_iadd_Some t1 (pr.1 + pr.2) (-1) k2 H2) as (t2 & E2 & L2 & _).
    rewrite E2. simpl. apply IH. rewrite L2, L1.
    apply Exists_cons in Hsub as [Hsub|Hsub]; [congruence|].
    apply Exists_cons in Hsub as [Hsub|Hsub]; [congruence|done].
Qed.
End tally.

(** ** The running sum *)

Section running_sum.
Implicit Types (l visited rest : list Z) (prior : Z) (f g : nat → Z).

Lemma length_prefix_sums l : ∀ prior, length (prefix_sums prior l) = length l.
Proof. induction l; intros; simpl; by f_equal. Qed.

(** The loop, run on the part of the range not yet visited: the visited
    part [visited] holds sums already, the rest still holds deltas. *)
Lemma sum_loop_from rest : ∀ visited prior,
  sum_loop (seq (length visited) (length rest)) (visited ++ rest) prior
  = Return (visited ++ prefix_sums prior rest).
Proof.
  induction rest as [|x rest IH]; intros visited prior; [done|].
  simpl.
  assert (Hi : py_index (length (visited ++ x :: rest)) (Z.of_nat (length visited))
               = Some (length visited)).
  { rewrite py_index_in_bounds, Nat2Z.id; [done|].
    rewrite length_app. simpl. lia. }
  rewrite (py_getitem_Some _ _ _ x Hi) by (by rewrite list_lookup_middle).
  simpl. unfold py_setitem. rewrite Hi. simpl.
  assert (Hins : <[length visited := x + prior]> (visited ++ x :: rest)
                 = (visited ++ [x + prior]) ++ rest).
  { rewrite insert_app_r_alt by done. rewrite Nat.sub_diag. simpl.
    by rewrite <- app_assoc. }
  rewrite Hins.
  assert (Hi' : py_index (length ((visited ++ [x + prior]) ++ rest))
                  (Z.of_nat (length visited)) = Some (length visited)).
  { rewrite <- Hins, length_insert. exact Hi. }
  rewrite (py_getitem_Some _ _ _ (x + prior) Hi').
  2:{ rewrite <- app_assoc. simpl. by rewrite list_lookup_middle. }
  simpl.
  specialize (IH (visited ++ [x + prior]) (x + prior)).
  rewrite length_app in IH. simpl in IH.
  rewrite Nat.add_1_r in IH. rewrite IH.
  by rewrite <- app_assoc.
Qed.

Lemma sum_loop_range l :
  sum_loop (seq 0 (length l)) l 0 = Return (prefix_sums 0 l).
Proof. exact (sum_loop_from l [] 0). Qed.

Lemma sum_upto_shift f k : sum_upto f (S k) = f O + sum_upto (f ∘ S) k.
Proof. induction k as [|k IH]; [simpl; lia|]. simpl in *. rewrite IH. lia. Qed.

Lemma sum_upto_ext f g k :
  (∀ q, (q < k)%nat → f q = g q) → sum_upto f k = sum_upto g k.
Proof.
  induction k as [|k IH]; intros H; [done|]. simpl.
  rewrite IH by (intros; apply H; lia). rewrite H by lia. done.
Qed.

Lemma sum_upto_add f g k :
  sum_upto (λ q, f q + g q) k = sum_upto f k + sum_upto g k.
Proof. induction k as [|k IH]; [done|]. simpl. rewrite IH. lia. Qed.

Lemma sum_upto_sub f g k :
  sum_upto (λ q, f q - g q) k = sum_upto f k - sum_upto g k.
Proof. induction k as [|k IH]; [done|]. simpl. rewrite IH. lia. Qed.

Lemma sum_upto_zero k : sum_upto (λ _, 0) k = 0.
Proof. induction k as [|k IH]; [done|]. simpl. rewrite IH. lia. Qed.

Lemma prefix_sums_lookup l : ∀ f prior (p : nat),
  (∀ q, (q < length l)%nat → l !! q = Some (f q)) →
  (p < length l)%nat →
  prefix_sums prior l !! p = Some (prior + sum_upto f (S p)).
Proof.
  induction l as [|x l IH]; intros f prior p Hf Hp; [simpl in Hp; lia|].
  assert (Hx : x = f O).
  { specialize (Hf O). simpl in Hf. by injection (Hf ltac:(lia)). }
  rewrite sum_upto_shift, <- Hx.
  destruct p as [|p]; cbn [prefix_sums lookup list_lookup].
  - simpl. f_equal. lia.
  - rewrite (IH (f ∘ S)).
    + f_equal. lia.
    + intros q Hq. apply (Hf (S q)). simpl. lia.
    + simpl in Hp. lia.
Qed.
End running_sum.

(** ** The largest end position *)

Section max_position.
Implicit Types (rs : list read) (m : Z).

Lemma foldr_max_init rs : ∀ a b,
  foldr max_end (Z.max a b) rs = Z.max a (foldr max_end b rs).
Proof.
  induction rs as [|pr rs IH]; intros; simpl; [done|].
  rewrite IH. unfold max_end. lia.
Qed.

Lemma max_loop_foldr rs : ∀ m, foldl max_step m rs = foldr max_end m rs.
Proof.
  induction rs as [|pr rs IH]; intros m; simpl; [done|].
  rewrite IH. replace (max_step m pr) with (Z.max (pr.1 + pr.2) m).
  - by rewrite foldr_max_init.
  - unfold max_step. case_bool_decide; lia.
Qed.

Lemma foldr_max_ge_init rs m : m ≤ foldr max_end m rs.
Proof. induction rs; simpl; unfold max_end in *; lia. Qed.

Lemma foldr_max_ge_elem rs m : Forall (λ pr, pr.1 + pr.2 ≤ foldr max_end m rs) rs.
Proof.
  induction rs as [|pr rs IH]; simpl; constructor.
  - unfold max_end. lia.
  - eapply Forall_impl; [exact IH|]. simpl. unfold max_end. intros. lia.
Qed.

Lemma getMaxPosition_nonneg rs : 0 ≤ __getMaxPosition rs.
Proof. unfold __getMaxPosition. rewrite max_loop_foldr. apply foldr_max_ge_init. Qed.

Lemma getMaxPosition_ge rs : Forall (λ pr, pr.1 + pr.2 ≤ __getMaxPosition rs) rs.
Proof. unfold __getMaxPosition. rewrite max_loop_foldr. apply foldr_max_ge_elem. Qed.

Lemma getMaxPosition_Permutation rs rs' :
  rs ≡ₚ rs' → __getMaxPosition rs = __getMaxPosition rs'.
Proof.
  intros H. unfold __getMaxPosition. rewrite !max_loop_foldr.
  generalize 0. induction H; intros m; simpl.
  - done.
  - by f_equal.
  - unfold max_end. lia.
  - by rewrite IHPermutation1.
Qed.

(** On non-negative intervals the loop computes the specification's
    [maxEnd]. *)
Lemma getMaxPosition_maxEnd rs :
  Forall nonneg rs → __getMaxPosition rs = maxEnd rs.
Proof.
  unfold __getMaxPosition. rewrite max_loop_foldr.
  destruct 1 as [|pr rs [Hs Hl] _]; [done|].
  change (Z.max (pr.1 + pr.2) (foldr max_end 0 rs) = foldr max_end (pr.1 + pr.2) rs).
  rewrite <- foldr_max_init. f_equal. lia.
Qed.

(** [maxEnd] is what its name says. *)
Lemma maxEnd_upper_bound rs : Forall (λ pr, pr.1 + pr.2 ≤ maxEnd rs) rs.
Proof.
  destruct rs as [|pr rs]; simpl; constructor.
  - apply foldr_max_ge_init.
  - apply foldr_max_ge_elem.
Qed.

Lemma maxEnd_attained rs : rs ≠ [] → ∃ pr, pr ∈ rs ∧ maxEnd rs = pr.1 + pr.2.
Proof.
  destruct rs as [|pr rs]; [done|]. intros _. simpl.
  revert pr. induction rs as [|pr' rs IH]; intros pr; simpl.
  - exists pr. split; [left|done].
  - destruct (IH pr) as (x & Hx & E).
    destruct (Z.max_spec (pr'.1 + pr'.2) (foldr max_end (pr.1 + pr.2) rs)) as [[_ Hm]|[_ Hm]].
    + exists x. split; [|unfold max_end at 1; lia].
      apply elem_of_cons in Hx as [->|Hx]; [left|right; by right].
    + exists pr'. split; [right; left|unfold max_end at 1; lia].
Qed.
End max_position.

(** ** Coverage: the brute-force count *)

Section coverage.
Implicit Types (rs : list read) (n k p q : nat) (i : Z).

Lemma coverage_Permutation rs rs' i : rs ≡ₚ rs' → coverage rs i = coverage rs' i.
Proof. intros H. unfold coverage. by rewrite H. Qed.

Lemma sum_upto_hit n i k :
  0 ≤ i < Z.of_nat n →
  sum_upto (λ q, if bool_decide (py_index n i = Some q) then 1 else 0) k
  = if bool_decide (i < Z.of_nat k) then 1 else 0.
Proof.
  intros Hi. rewrite py_index_in_bounds by done.
  induction k as [|k IH]; simpl.
  - by rewrite bool_decide_eq_false_2 by lia.
  - rewrite IH.
    rewrite (bool_decide_ext (Some (Z.to_nat i) = Some k) (i = Z.of_nat k)).
    + repeat case_bool_decide; lia.
    + split; intros; simplify_eq; [lia|f_equal; lia].
Qed.

Lemma sum_upto_delta1 n pr p :
  nonneg pr → pr.1 + pr.2 < Z.of_nat n →
  sum_upto (delta1 n pr) (S p) = if decide (covers (Z.of_nat p) pr) then 1 else 0.
Proof.
  intros [Hs Hl] Hn. unfold delta1.
  rewrite (sum_upto_sub
    (λ q, if bool_decide (py_index n pr.1 = Some q) then 1 else 0)
    (λ q, if bool_decide (py_index n (pr.1 + pr.2) = Some q) then 1 else 0)).
  rewrite !sum_upto_hit by lia.
  unfold covers. repeat case_bool_decide; case_decide; lia.
Qed.

Lemma sum_upto_delta_at n rs p :
  Forall nonneg rs → Forall (λ pr, pr.1 + pr.2 < Z.of_nat n) rs →
  sum_upto (delta_at n rs) (S p) = coverage rs (Z.of_nat p).
Proof.
  induction rs as [|pr rs IH]; intros Hnn Hn.
  - unfold coverage. simpl. change (sum_upto (λ _, 0) p + 0 = 0).
    rewrite sum_upto_zero. lia.
  - apply Forall_cons in Hnn as [Hpr Hnn]. apply Forall_cons in Hn as [Hprn Hn].
    change (delta_at n (pr :: rs)) with (λ q, delta1 n pr q + delta_at n rs q).
    rewrite sum_upto_add, IH, sum_upto_delta1 by done.
    unfold coverage. rewrite filter_cons. case_decide; simpl length; lia.
Qed.
End coverage.

(** ** The local computation of [calculateDepth] *)

Section accumulate.
Implicit Types (rs : list read).

Lemma accumulate_Return rs :
  let n := Z.to_nat (__getMaxPosition rs + 1) in
  Forall (λ i, is_Some (py_index n i)) (tally_subscripts rs) →
  ∃ t, tally_loop rs (replicate n 0) = Return t ∧ length t = n ∧
       (∀ q, (q < n)%nat → t !! q = Some (delta_at n rs q)) ∧
       accumulate rs = Return (prefix_sums 0 t).
Proof.
  intros n Hsub.
  destruct (tally_loop_Return rs (replicate n 0)) as (t & Et & Lt & Vt).
  { by rewrite length_replicate. }
  rewrite length_replicate in Lt, Vt.
  exists t. split; [done|]. split; [done|]. split.
  - intros q Hq. by rewrite Vt, lookup_replicate_2 by done.
  - unfold accumulate. fold n. rewrite Et. simpl. apply sum_loop_range.
Qed.

Lemma accumulate_Raise rs :
  let n := Z.to_nat (__getMaxPosition rs + 1) in
  Exists (λ i, py_index n i = None) (tally_subscripts rs) →
  accumulate rs = Raise IndexError.
Proof.
  intros n Hsub. unfold accumulate. fold n.
  rewrite tally_loop_Raise; [done|]. by rewrite length_replicate.
Qed.

(** The subscripts of the first loop decide the outcome. *)
Lemma accumulate_cases rs :
  let n := Z.to_nat (__getMaxPosition rs + 1) in
  (Forall (λ i, is_Some (py_index n i)) (tally_subscripts rs) ∧
   ∃ sums, accumulate rs = Return sums)
  ∨ (Exists (λ i, py_index n i = None) (tally_subscripts rs) ∧
     accumulate rs = Raise IndexError).
Proof.
  intros n.
  destruct (decide (Forall (λ i, is_Some (py_index n i)) (tally_subscripts rs)))
    as [Hall|Hex].
  - left. split; [done|].
    destruct (accumulate_Return rs Hall) as (t & _ & _ & _ & E). eauto.
  - right. apply not_Forall_Exists in Hex; [|apply _].
    assert (Exists (λ i, py_index n i = None) (tally_subscripts rs)) as Hex'.
    { eapply Exists_impl; [exact Hex|]. simpl. intros i Hi.
      by apply eq_None_not_Some. }
    split; [done|]. by apply accumulate_Raise.
Qed.

(** On non-negative intervals every subscript of the first loop lies in
    [[0, n)]. *)
Lemma tally_subscripts_in_bounds rs :
  Forall nonneg rs →
  Forall (λ i, 0 ≤ i < Z.of_nat (Z.to_nat (__getMaxPosition rs + 1)))
         (tally_subscripts rs).
Proof.
  intros Hnn. pose proof (getMaxPosition_ge rs) as Hge.
  pose proof (getMaxPosition_nonneg rs) as H0.
  generalize dependent (__getMaxPosition rs). intros m Hge H0.
  unfold tally_subscripts.
  induction rs as [|pr rs IH]; [constructor|].
  apply Forall_cons in Hnn as [[Hs Hl] Hnn]. apply Forall_cons in Hge as [Hpr Hge].
  simpl. repeat constructor; try lia. by apply IH.
Qed.

Lemma accumulate_nonneg rs :
  Forall nonneg rs →
  ∃ sums, accumulate rs = Return sums ∧
          length sums = Z.to_nat (__getMaxPosition rs + 1) ∧
          ∀ p, (p < length sums)%nat → sums !! p = Some (coverage rs (Z.of_nat p)).
Proof.
  intros Hnn. set (n := Z.to_nat (__getMaxPosition rs + 1)).
  destruct (accumulate_Return rs) as (t & _ & Lt & Vt & E).
  { eapply Forall_impl; [by apply tally_subscripts_in_bounds|].
    simpl. intros i Hi. rewrite py_index_in_bounds by done. eauto. }
  fold n in Lt, Vt.
  exists (prefix_sums 0 t). rewrite length_prefix_sums.
  split; [done|]. split; [done|].
  intros p Hp. rewrite (prefix_sums_lookup t (delta_at n rs)); [|by rewrite Lt|done].
  rewrite sum_upto_delta_at; [f_equal; lia|done|].
  eapply Forall_impl; [apply getMaxPosition_ge|].
  simpl. intros pr Hpr. pose proof (getMaxPosition_nonneg rs). lia.
Qed.
End accumulate.

(** ** Running the methods on a store *)

(** Resolve the lookups of a run whose results are among the hypotheses. *)
Ltac run_store :=
repeat match goal with
       | H : ?x = Some _ |- context [?x] => rewrite H; simpl
       | H : ?x = None |- context [?x] => rewrite H; simpl
       end.

Section methods.
Implicit Types (st : state) (self : loc) (e : engine) (rs : list read).

Lemma reads_of_Some st self rs :
  reads_of st self = Some rs ↔
  ∃ e, objs st !! self = Some e ∧ rlists st !! reads e = Some rs.
Proof.
  unfold reads_of. destruct (objs st !! self) as [e|]; simpl.
  - split; [eauto|]. by intros (? & [= <-] & ?).
  - split; [done|]. by intros (? & ? & ?).
Qed.

Lemma depths_of_Some st self (d : list Z) :
  depths_of st self = Some d ↔
  ∃ e, objs st !! self = Some e ∧ ilists st !! depths e = Some d.
Proof.
  unfold depths_of. destruct (objs st !! self) as [e|]; simpl.
  - split; [eauto|]. by intros (? & [= <-] & ?).
  - split; [done|]. by intros (? & ? & ?).
Qed.

Lemma preprocessReadData_run st self e rs :
  objs st !! self = Some e → rlists st !! reads e = Some rs →
  preprocessReadData self st
  = (Return tt, State (objs st) (<[reads e := sort_reads rs]> (rlists st)) (ilists st)).
Proof.
  intros He Hrs.
  unfold preprocessReadData, mbind, M_bind, getattr, load_reads, store_reads.
  by run_store.
Qed.

(** The store after [calculateDepth]: the reads are sorted in place; the
    depths are a new list, bound to [self.depths] by the last statement. *)
Lemma calculateDepth_run st self e rs :
  objs st !! self = Some e → rlists st !! reads e = Some rs →
  calculateDepth self st =
    let sorted := <[reads e := sort_reads rs]> (rlists st) in
    match accumulate (sort_reads rs) with
    | Return sums =>
        let d := fresh (dom (ilists st)) in
        (Return tt, State (<[self := Engine (reads e) (loci e) d]> (objs st))
                          sorted (<[d := sums]> (ilists st)))
    | Raise x => (Raise x, State (objs st) sorted (ilists st))
    | Stuck => (Stuck, State (objs st) sorted (ilists st))
    end.
Proof.
  intros He Hrs. unfold calculateDepth.
  unfold mbind at 1. unfold M_bind at 1.
  rewrite (preprocessReadData_run _ _ _ _ He Hrs).
  unfold mbind, M_bind, getattr, load_reads, lift, new_ints, set_depths. simpl.
  rewrite He. simpl. rewrite lookup_insert_eq. simpl.
  destruct (accumulate (sort_reads rs)); simpl; [|done..].
  by rewrite He.
Qed.

Lemma calculateDepth_no_object st self :
  objs st !! self = None → calculateDepth self st = (Stuck, st).
Proof.
  intros He. unfold calculateDepth, preprocessReadData, mbind, M_bind, getattr.
  by rewrite He.
Qed.

Lemma calculateDepth_no_reads st self e :
  objs st !! self = Some e → rlists st !! reads e = None →
  calculateDepth self st = (Stuck, st).
Proof.
  intros He Hrs.
  unfold calculateDepth, preprocessReadData, mbind, M_bind, getattr, load_reads.
  by run_store.
Qed.

Lemma depthAt_run st self (d : list Z) locus :
  depths_of st self = Some d → depthAt self locus st = (py_getitem d locus, st).
Proof.
  intros (e & He & Hd)%depths_of_Some.
  unfold depthAt, getDepths, mbind, M_bind, getattr, load_ints, lift, mret, M_ret.
  by run_store.
Qed.

(** After a successful [calculateDepth] the stored depths are the
    accumulated sums. *)
Lemma calculateDepth_Return st self rs sums :
  reads_of st self = Some rs → accumulate (sort_reads rs) = Return sums →
  ∃ st', calculateDepth self st = (Return tt, st') ∧
         depths_of st' self = Some sums ∧
         reads_of st' self = Some (sort_reads rs).
Proof.
  intros (e & He & Hrs)%reads_of_Some Hacc.
  rewrite (calculateDepth_run _ _ _ _ He Hrs), Hacc. simpl.
  eexists. split; [done|]. unfold depths_of, reads_of. simpl.
  rewrite !lookup_insert_eq. simpl. by rewrite !lookup_insert_eq.
Qed.
End methods.

(** * The depth profile of non-negative reads *)

Section depth_profile.
Implicit Types (st : state) (self : loc) (rs : list read).

Lemma calculateDepth_nonneg st self rs :
  reads_of st self = Some rs → Forall nonneg rs →
  ∃ st' d, calculateDepth self st = (Return tt, st') ∧
           depths_of st' self = Some d ∧
           length d = Z.to_nat (__getMaxPosition rs + 1) ∧
           ∀ p, (p < length d)%nat → d !! p = Some (coverage rs (Z.of_nat p)).
Proof.
  intros Hrs Hnn.
  destruct (accumulate_nonneg (sort_reads rs)) as (d & Hacc & Hlen & Hval).
  { by rewrite sort_reads_Permutation. }
  destruct (calculateDepth_Return _ _ _ _ Hrs Hacc) as (st' & Hrun & Hd & _).
  exists st', d. split; [done|]. split; [done|]. split.
  - rewrite Hlen. f_equal. f_equal. apply getMaxPosition_Permutation, sort_reads_Permutation.
  - intros p Hp. rewrite (Hval p Hp). f_equal.
    apply coverage_Permutation, sort_reads_Permutation.
Qed.

(** C1. When every interval of the ReadSet has a non-negative start and a
    non-negative length, [calculateDepth] succeeds, the profile has
    [maxEnd + 1] entries, one for each position from [0] to the largest end
    [maxEnd] of the ReadSet, and for every position [p] with
    [0 <= p < len(depths)], [depths[p]] is the number of intervals [(s, l)]
    of the ReadSet with [s <= p < s + l]. *)
Theorem calculateDepth_counts_covering_reads st self rs :
  reads_of st self = Some rs → Forall nonneg rs →
  ∃ st' d, calculateDepth self st = (Return tt, st') ∧
           depths_of st' self = Some d ∧
           Z.of_nat (length d) = maxEnd rs + 1 ∧
           ∀ p, 0 ≤ p < Z.of_nat (length d) →
                py_getitem d p = Return (coverage rs p) ∧
                depthAt self p st' = (Return (coverage rs p), st').
Proof.
  intros Hrs Hnn.
  destruct (calculateDepth_nonneg _ _ _ Hrs Hnn)
    as (st' & d & Hrun & Hd & Hlen & Hval).
  exists st', d. split; [done|]. split; [done|]. split.
  { rewrite Hlen, <- (getMaxPosition_maxEnd rs Hnn).
    pose proof (getMaxPosition_nonneg rs). lia. }
  intros p Hp.
  assert (py_getitem d p = Return (coverage rs p)) as Hget.
  { eapply py_getitem_Some; [by apply py_index_in_bounds|].
    rewrite Hval by lia. f_equal. f_equal. lia. }
  split; [done|]. by rewrite (depthAt_run _ _ _ _ Hd), Hget.
Qed.

Lemma calculateDepth_counts_covering_reads_witness :
  let st := state_after (construct [(10, 30); (20, 40)] [5; 15; 30]) in
  ∃ st' d, calculateDepth 0%nat st = (Return tt, st') ∧
           depths_of st' 0%nat = Some d ∧
           Z.of_nat (length d) = maxEnd [(10, 30); (20, 40)] + 1 ∧
           ∀ p, 0 ≤ p < Z.of_nat (length d) →
                py_getitem d p = Return (coverage [(10, 30); (20, 40)] p) ∧
                depthAt 0%nat p st' = (Return (coverage [(10, 30); (20, 40)] p), st').
Proof.
  apply (calculateDepth_counts_covering_reads _ 0%nat [(10, 30); (20, 40)]).
  - reflexivity.
  - apply (bool_decide_unpack _). vm_compute. exact I.
Defined.

(** C2. On non-negative intervals the depth profile has [maxEnd + 1]
    entries, where [maxEnd] is the maximum of [start + length] over the
    ReadSet, or [0] when the ReadSet is empty. *)
Theorem calculateDepth_length st self rs :
  reads_of st self = Some rs → Forall nonneg rs →
  ∃ st' d, calculateDepth self st = (Return tt, st') ∧
           depths_of st' self = Some d ∧
           Z.of_nat (length d) = maxEnd rs + 1.
Proof.
  intros Hrs Hnn.
  destruct (calculateDepth_nonneg _ _ _ Hrs Hnn) as (st' & d & Hrun & Hd & Hlen & _).
  exists st', d. split; [done|]. split; [done|].
  rewrite Hlen, <- (getMaxPosition_maxEnd rs Hnn).
  pose proof (getMaxPosition_nonneg rs). lia.
Qed.

Lemma calculateDepth_length_witness :
  let st := state_after (construct [(10, 20); (20, 40); (15, 15)] [0; 50; 15; 30]) in
  ∃ st' d, calculateDepth 0%nat st = (Return tt, st') ∧
           depths_of st' 0%nat = Some d ∧
           Z.of_nat (length d) = maxEnd [(10, 20); (20, 40); (15, 15)] + 1.
Proof.
  apply (calculateDepth_length _ 0%nat [(10, 20); (20, 40); (15, 15)]).
  - reflexivity.
  - apply (bool_decide_unpack _). vm_compute. exact I.
Defined.

(** C7. On the empty ReadSet [calculateDepth] stores the one-element
    profile [[0]]. *)
Theorem calculateDepth_empty st self :
  reads_of st self = Some [] →
  ∃ st', calculateDepth self st = (Return tt, st') ∧ depths_of st' self = Some [0].
Proof.
  intros Hrs.
  destruct (calculateDepth_Return st self [] [0] Hrs eq_refl) as (st' & Hrun & Hd & _).
  eauto.
Qed.

Lemma calculateDepth_empty_witness :
  let st := state_after (construct [] []) in
  ∃ st', calculateDepth 0%nat st = (Return tt, st') ∧ depths_of st' 0%nat = Some [0].
Proof. apply (calculateDepth_empty _ 0%nat). reflexivity. Defined.

(** The subscripts are what decides whether the loops raise. *)
Lemma accumulate_Raise_iff rs :
  accumulate rs = Raise IndexError ↔
  Exists (λ i, py_index (Z.to_nat (__getMaxPosition rs + 1)) i = None)
         (tally_subscripts rs).
Proof.
  destruct (accumulate_cases rs) as [[Hall [sums E]]|[Hex E]].
  - rewrite E. split; [done|]. intros Hex. exfalso.
    apply Exists_exists in Hex as (i & Hi & Hnone).
    rewrite Forall_forall in Hall. destruct (Hall i Hi) as [k Hk]. congruence.
  - by rewrite E.
Qed.

(** C9. On non-negative intervals every subscript of the two loops of
    [calculateDepth] lies in [[0, n)] for the array length [n]: the
    decrement at [start + length] included, never by wrapping around; no
    [IndexError] is raised. *)
Theorem calculateDepth_subscripts_in_bounds st self rs :
  reads_of st self = Some rs → Forall nonneg rs →
  let sorted := sort_reads rs in
  let n := Z.to_nat (__getMaxPosition sorted + 1) in
  Z.of_nat n = maxEnd rs + 1 ∧
  Forall (λ i, 0 ≤ i < Z.of_nat n) (tally_subscripts sorted ++ sum_subscripts n) ∧
  accumulate sorted ≠ Raise IndexError ∧
  ∃ st', calculateDepth self st = (Return tt, st').
Proof.
  intros Hrs Hnn sorted n.
  assert (Forall nonneg sorted) as Hnn' by (by unfold sorted; rewrite sort_reads_Permutation).
  split; [|split; [|split]].
  - unfold n, sorted.
    rewrite (getMaxPosition_Permutation _ _ (sort_reads_Permutation rs)).
    rewrite <- (getMaxPosition_maxEnd rs Hnn).
    pose proof (getMaxPosition_nonneg rs). lia.
  - apply Forall_app. split; [by apply tally_subscripts_in_bounds|].
    unfold sum_subscripts. apply Forall_fmap, Forall_forall.
    intros i Hi%elem_of_seq. simpl. lia.
  - destruct (accumulate_nonneg sorted Hnn') as (d & E & _). by rewrite E.
  - destruct (calculateDepth_nonneg _ _ _ Hrs Hnn) as (st' & d & Hrun & _). eauto.
Qed.

Lemma calculateDepth_subscripts_in_bounds_witness :
  let st := state_after (construct [(20, 40); (10, 30); (20, 10)] []) in
  let sorted := sort_reads [(20, 40); (10, 30); (20, 10)] in
  let n := Z.to_nat (__getMaxPosition sorted + 1) in
  Z.of_nat n = maxEnd [(20, 40); (10, 30); (20, 10)] + 1 ∧
  Forall (λ i, 0 ≤ i < Z.of_nat n) (tally_subscripts sorted ++ sum_subscripts n) ∧
  accumulate sorted ≠ Raise IndexError ∧
  ∃ st', calculateDepth 0%nat st = (Return tt, st').
Proof.
  apply (calculateDepth_subscripts_in_bounds _ 0%nat [(20, 40); (10, 30); (20, 10)]).
  - reflexivity.
  - apply (bool_decide_unpack _). vm_compute. exact I.
Defined.
End depth_profile.

(** * Normalisation of the ReadSet *)

(** C8. [preprocessReadData] leaves the ReadSet in ascending order of
    [(start, length)], ties on the start being broken by the length, and
    with the same multiset of intervals; [[(20,40),(10,30),(20,10)]] becomes
    [[(10,30),(20,10),(20,40)]]. *)
Theorem preprocessReadData_sorts (st : state) (self : loc) (rs : list read) :
  reads_of st self = Some rs →
  ∃ st' rs', preprocessReadData self st = (Return tt, st') ∧
             reads_of st' self = Some rs' ∧
             StronglySorted key_le rs' ∧
             rs' ≡ₚ rs ∧
             (rs = [(20, 40); (10, 30); (20, 10)] →
              rs' = [(10, 30); (20, 10); (20, 40)]).
Proof.
  intros (e & He & Hrs)%reads_of_Some.
  eexists _, (sort_reads rs). split; [by apply preprocessReadData_run|].
  split; [|split; [|split]].
  - unfold reads_of. simpl. rewrite He. simpl. apply lookup_insert_eq.
  - apply sort_reads_sorted.
  - apply sort_reads_Permutation.
  - by intros ->.
Qed.

Lemma preprocessReadData_sorts_witness :
  ∃ st' rs',
    preprocessReadData 0%nat (state_after (construct [(20, 40); (10, 30); (20, 10)] []))
    = (Return tt, st') ∧
    reads_of st' 0%nat = Some rs' ∧
    StronglySorted key_le rs' ∧
    rs' ≡ₚ [(20, 40); (10, 30); (20, 10)] ∧
    ([(20, 40); (10, 30); (20, 10)] = [(20, 40); (10, 30); (20, 10)] →
     rs' = [(10, 30); (20, 10); (20, 40)]).
Proof. apply (preprocessReadData_sorts _ 0%nat). reflexivity. Defined.

(** * Failure of [calculateDepth] *)

(** C6. [calculateDepth] binds [self.depths] in its last statement only:
    either it returns, and the stored depths are the running sums of the
    delta array of the whole ReadSet, or it does not, and no instance's
    depths have changed. *)
Theorem calculateDepth_atomic (st : state) (self : loc) :
  match calculateDepth self st with
  | (Return _, st') =>
      ∃ rs t,
        reads_of st self = Some rs ∧
        tally_loop (sort_reads rs)
          (replicate (Z.to_nat (__getMaxPosition (sort_reads rs) + 1)) 0) = Return t ∧
        depths_of st' self = Some (prefix_sums 0 t)
  | (_, st') =>
      objs st' = objs st ∧ ilists st' = ilists st ∧
      ∀ other, depths_of st' other = depths_of st other
  end.
Proof.
  destruct (objs st !! self) as [e|] eqn:He;
    [|by rewrite calculateDepth_no_object].
  destruct (rlists st !! reads e) as [rs|] eqn:Hrs;
    [|by rewrite (calculateDepth_no_reads _ _ e)].
  assert (reads_of st self = Some rs) as Hreads by (apply reads_of_Some; eauto).
  destruct (accumulate_cases (sort_reads rs)) as [[Hall _]|[_ E]].
  - destruct (accumulate_Return _ Hall) as (t & Et & _ & _ & E).
    destruct (calculateDepth_Return _ _ _ _ Hreads E) as (st' & -> & Hd & _).
    by exists rs, t.
  - rewrite (calculateDepth_run _ _ _ _ He Hrs), E. simpl. done.
Qed.

(** An instance whose reads make [calculateDepth] raise keeps the depths
    of an earlier run: with [(-30, 1)] added the array has [3] entries and
    the subscript [-30] is out of range. *)
Example calculateDepth_failure_keeps_depths :
  outcome_of (a ← construct [(0, 2)] [];
              calculateDepth a;;
              addReads a [(-30, 1)];;
              calculateDepth a) = Raise IndexError ∧
  depths_of (state_after (a ← construct [(0, 2)] [];
                          calculateDepth a;;
                          addReads a [(-30, 1)];;
                          calculateDepth a)) 0%nat = Some [1; 1; 0].
Proof. split; reflexivity. Qed.

(** * Queries *)

Section queries.
Implicit Types (st : state) (self : loc) (d : list Z) (locus : Z).

(** C3, as the code has it.  A locus at or beyond the end of the profile,
    or below [-len(depths)], raises [IndexError]; a locus in
    [[-len(depths), 0)] counts from the end of the profile and returns
    [depths[len(depths) + locus]]. *)
Theorem depthAt_python_index st self d locus :
  depths_of st self = Some d →
  (Z.of_nat (length d) ≤ locus ∨ locus < - Z.of_nat (length d) →
   depthAt self locus st = (Raise IndexError, st)) ∧
  (- Z.of_nat (length d) ≤ locus < 0 →
   ∃ v, d !! Z.to_nat (Z.of_nat (length d) + locus) = Some v ∧
        depthAt self locus st = (Return v, st)).
Proof.
  intros Hd. rewrite (depthAt_run _ _ _ _ Hd). split.
  - intros Hout. rewrite py_getitem_None; [done|]. apply py_index_None. lia.
  - intros Hneg.
    destruct (lookup_lt_is_Some_2 d (Z.to_nat (Z.of_nat (length d) + locus)))
      as [v Hv]; [lia|].
    exists v. split; [done|].
    by rewrite (py_getitem_Some _ _ _ v (py_index_wraps _ _ Hneg) Hv).
Qed.

Lemma depthAt_python_index_witness :
  (Z.of_nat (length [1; 1; 0]) ≤ 3 ∨ 3 < - Z.of_nat (length [1; 1; 0]) →
   depthAt 0%nat 3 (state_after (a ← construct [(0, 2)] []; calculateDepth a))
   = (Raise IndexError, state_after (a ← construct [(0, 2)] []; calculateDepth a))) ∧
  (- Z.of_nat (length [1; 1; 0]) ≤ 3 < 0 →
   ∃ v, [1; 1; 0] !! Z.to_nat (Z.of_nat (length [1; 1; 0]) + 3) = Some v ∧
        depthAt 0%nat 3 (state_after (a ← construct [(0, 2)] []; calculateDepth a))
        = (Return v, state_after (a ← construct [(0, 2)] []; calculateDepth a))).
Proof. apply (depthAt_python_index _ 0%nat [1; 1; 0] 3). reflexivity. Defined.

(** C3 as stated fails: on the profile [[1, 1, 0]] of the reads [[(0, 2)]]
    the locus [-2] is below [0], yet the query returns the depth [1]. *)
Lemma depthAt_negative_locus_returns :
  depths_of (state_after (a ← construct [(0, 2)] []; calculateDepth a)) 0%nat
  = Some [1; 1; 0] ∧
  -2 < 0 ∧
  outcome_of (a ← construct [(0, 2)] []; calculateDepth a;; depthAt a (-2)) = Return 1.
Proof. repeat split. Qed.

Lemma init_unstarted st reads_arg loci_arg :
  is_Some (ilists st !! default default_loci loci_arg) →
  ∃ self st', __init__ reads_arg loci_arg st = (Return self, st') ∧ unstarted st' self.
Proof.
  intros Hloci. eexists _, _. split; [reflexivity|].
  eexists. simpl. rewrite lookup_insert_eq. split; [done|]. simpl.
  split; [apply lookup_insert_eq|].
  intros Heq. apply (is_fresh (dom (ilists st))). rewrite <- Heq.
  by apply elem_of_dom.
Qed.

Lemma do_call_unstarted st self c :
  unstarted st self → unstarted (do_call self c st).2 self.
Proof.
  intros (e & He & Hd & Hne).
  destruct c as [readslist|locilist|]; simpl;
    unfold addReads, addLoci, preprocessReadData, mbind, M_bind, getattr,
           load_reads, store_reads, load_ints, store_ints;
    rewrite He; simpl.
  - destruct (rlists st !! reads e) eqn:E; simpl; [rewrite E; simpl|];
      by exists e.
  - destruct (ilists st !! loci e) eqn:E; simpl; [rewrite E; simpl|];
      exists e; simpl; [|done].
    by rewrite lookup_insert_ne.
  - destruct (rlists st !! reads e) eqn:E; simpl; [rewrite E; simpl|];
      by exists e.
Qed.

Lemma do_calls_unstarted cs : ∀ st self,
  unstarted st self → unstarted (do_calls self cs st) self.
Proof.
  induction cs as [|c cs IH]; intros st self Hst; [done|].
  apply IH. by apply do_call_unstarted.
Qed.

(** C4, as the code has it.  On an instance on which [calculateDepth] has
    never run, whatever was appended to it, the depths are the empty list:
    [getDepths] returns it without an error, and indexing it raises
    [IndexError] at every locus, the exception that an out-of-range locus
    raises on a computed profile. *)
Theorem depthAt_before_calculateDepth st reads_arg loci_arg self st1 cs locus :
  is_Some (ilists st !! default default_loci loci_arg) →
  __init__ reads_arg loci_arg st = (Return self, st1) →
  depths_of (do_calls self cs st1) self = Some [] ∧
  (∃ ref : loc,
     getDepths self (do_calls self cs st1) = (Return ref, do_calls self cs st1) ∧
     ilists (do_calls self cs st1) !! ref = Some []) ∧
  depthAt self locus (do_calls self cs st1)
  = (Raise IndexError, do_calls self cs st1) ∧
  (∀ st' other d locus',
     depths_of st' other = Some d → Z.of_nat (length d) ≤ locus' →
     (depthAt other locus' st').1 = (depthAt self locus (do_calls self cs st1)).1).
Proof.
  intros Hloci Hinit.
  destruct (init_unstarted st reads_arg loci_arg Hloci) as (self' & st1' & E & Hun).
  rewrite Hinit in E. injection E as <- <-.
  apply (do_calls_unstarted cs) in Hun. destruct Hun as (e & He & Hd & _).
  assert (depths_of (do_calls self cs st1) self = Some []) as Hdepths.
  { apply depths_of_Some. eauto. }
  assert (depthAt self locus (do_calls self cs st1)
          = (Raise IndexError, do_calls self cs st1)) as Hquery.
  { rewrite (depthAt_run _ _ _ _ Hdepths).
    rewrite py_getitem_None; [done|]. apply py_index_None. simpl. lia. }
  split; [done|]. split; [|split; [done|]].
  - exists (depths e). split; [|done].
    unfold getDepths, mbind, M_bind, getattr. by rewrite He.
  - intros st' other d locus' Hd' Hout. rewrite Hquery, (depthAt_run _ _ _ _ Hd').
    rewrite py_getitem_None; [done|]. apply py_index_None. lia.
Qed.
End queries.

Lemma depthAt_before_calculateDepth_witness :
  depths_of (do_calls 0%nat [AddReads [(1, 2)]; AddLoci [5]]
               (state_after (__init__ None None))) 0%nat = Some [] ∧
  (∃ ref : loc,
     getDepths 0%nat (do_calls 0%nat [AddReads [(1, 2)]; AddLoci [5]]
                        (state_after (__init__ None None)))
     = (Return ref, do_calls 0%nat [AddReads [(1, 2)]; AddLoci [5]]
                      (state_after (__init__ None None))) ∧
     ilists (do_calls 0%nat [AddReads [(1, 2)]; AddLoci [5]]
               (state_after (__init__ None None))) !! ref = Some []) ∧
  depthAt 0%nat 0 (do_calls 0%nat [AddReads [(1, 2)]; AddLoci [5]]
                     (state_after (__init__ None None)))
  = (Raise IndexError, do_calls 0%nat [AddReads [(1, 2)]; AddLoci [5]]
                         (state_after (__init__ None None))) ∧
  (∀ st' other d locus',
     depths_of st' other = Some d → Z.of_nat (length d) ≤ locus' →
     (depthAt other locus' st').1
     = (depthAt 0%nat 0 (do_calls 0%nat [AddReads [(1, 2)]; AddLoci [5]]
                           (state_after (__init__ None None)))).1).
Proof.
  apply (depthAt_before_calculateDepth class_defined None None 0%nat
           (state_after (__init__ None None)) [AddReads [(1, 2)]; AddLoci [5]] 0).
  - exists []. reflexivity.
  - reflexivity.
Defined.

(** C4 as stated fails: a query before any [calculateDepth] and a query
    beyond the end of a computed profile raise the same exception, and
    [getDepths] on the new instance returns the empty list. *)
Lemma depthAt_unstarted_same_exception :
  outcome_of (a ← construct [(0, 2)] []; depthAt a 0) = Raise IndexError ∧
  outcome_of (a ← construct [(0, 2)] []; calculateDepth a;; depthAt a 3)
  = Raise IndexError ∧
  outcome_of (a ← construct [(0, 2)] []; d ← getDepths a; load_ints d) = Return [].
Proof. repeat split. Qed.

(** * Intervals that are not validated *)

Section unvalidated.
Implicit Types (st : state) (self : loc) (rs : list read).

Lemma elem_of_tally_subscripts rs i :
  i ∈ tally_subscripts rs ↔ ∃ pr, pr ∈ rs ∧ (i = pr.1 ∨ i = pr.1 + pr.2).
Proof.
  unfold tally_subscripts. rewrite list_elem_of_bind.
  split.
  - intros (pr & Hi & Hpr). exists pr. split; [done|].
    apply elem_of_cons in Hi as [Hi|Hi]; [by left|].
    apply elem_of_cons in Hi as [Hi|Hi]; [by right|].
    by apply elem_of_nil in Hi.
  - intros (pr & Hpr & [Hi|Hi]); subst i; exists pr; (split; [|done]).
    + by left.
    + right. by left.
Qed.

Lemma calculateDepth_outcome st self rs :
  reads_of st self = Some rs →
  (calculateDepth self st).1 = (accumulate (sort_reads rs) ≫= λ _, Return tt).
Proof.
  intros (e & He & Hrs)%reads_of_Some.
  rewrite (calculateDepth_run _ _ _ _ He Hrs).
  by destruct (accumulate (sort_reads rs)).
Qed.

Lemma addReads_run st self rs readslist :
  reads_of st self = Some rs →
  ∃ st', addReads self readslist st = (Return tt, st') ∧
         reads_of st' self = Some (rs ++ readslist).
Proof.
  intros (e & He & Hrs)%reads_of_Some.
  eexists. unfold addReads, mbind, M_bind, getattr, load_reads, store_reads.
  run_store. split; [done|].
  unfold reads_of. simpl. rewrite He. simpl. apply lookup_insert_eq.
Qed.

(** C5, as the code has it.  [addReads] appends any interval and never
    fails.  [calculateDepth] on a ReadSet with negative starts or lengths
    raises [IndexError] exactly when a start or an end [start + length]
    lies outside [[-n, n)], for [n] the length of the delta array;
    otherwise it returns, the negative subscripts counting from the end of
    the array. *)
Theorem negative_intervals_not_validated st self rs :
  reads_of st self = Some rs →
  (∀ readslist, ∃ st', addReads self readslist st = (Return tt, st') ∧
                       reads_of st' self = Some (rs ++ readslist)) ∧
  ((calculateDepth self st).1 = Raise IndexError ↔
   ∃ pr, pr ∈ rs ∧
         ¬ (- (__getMaxPosition rs + 1) ≤ pr.1 < __getMaxPosition rs + 1 ∧
            - (__getMaxPosition rs + 1) ≤ pr.1 + pr.2 < __getMaxPosition rs + 1)) ∧
  ((calculateDepth self st).1 = Raise IndexError ∨
   (calculateDepth self st).1 = Return tt).
Proof.
  intros Hrs. split; [intros; by apply addReads_run|].
  rewrite (calculateDepth_outcome _ _ _ Hrs).
  pose proof (sort_reads_Permutation rs) as Hperm.
  pose proof (getMaxPosition_nonneg rs) as Hm.
  split.
  - assert (accumulate (sort_reads rs) ≫= (λ _, Return ()) = Raise IndexError
            ↔ accumulate (sort_reads rs) = Raise IndexError) as ->.
    { destruct (accumulate (sort_reads rs)) as [?|[]|]; simpl; split; done. }
    rewrite accumulate_Raise_iff, Exists_exists.
    rewrite (getMaxPosition_Permutation _ _ Hperm).
    setoid_rewrite elem_of_tally_subscripts. setoid_rewrite py_index_None.
    setoid_rewrite Hperm.
    split.
    + intros (i & (pr & Hpr & Hi) & Hout). exists pr. split; [done|].
      destruct Hi; subst i; lia.
    + intros (pr & Hpr & Hout).
      destruct (decide (- (__getMaxPosition rs + 1) ≤ pr.1 < __getMaxPosition rs + 1)).
      * exists (pr.1 + pr.2). split; [eauto|]. lia.
      * exists pr.1. split; [eauto|]. lia.
  - destruct (accumulate_cases (sort_reads rs)) as [[_ [sums E]]|[_ E]];
      rewrite E; simpl; eauto.
Qed.

Lemma negative_intervals_not_validated_witness :
  (∀ readslist, ∃ st',
     addReads 0%nat readslist (state_after (construct [(0, 5); (-2, 1)] []))
     = (Return tt, st') ∧
     reads_of st' 0%nat = Some ([(0, 5); (-2, 1)] ++ readslist)) ∧
  ((calculateDepth 0%nat (state_after (construct [(0, 5); (-2, 1)] []))).1
   = Raise IndexError ↔
   ∃ pr, pr ∈ [(0, 5); (-2, 1)] ∧
         ¬ (- (__getMaxPosition [(0, 5); (-2, 1)] + 1) ≤ pr.1
              < __getMaxPosition [(0, 5); (-2, 1)] + 1 ∧
            - (__getMaxPosition [(0, 5); (-2, 1)] + 1) ≤ pr.1 + pr.2
              < __getMaxPosition [(0, 5); (-2, 1)] + 1)) ∧
  ((calculateDepth 0%nat (state_after (construct [(0, 5); (-2, 1)] []))).1
   = Raise IndexError ∨
   (calculateDepth 0%nat (state_after (construct [(0, 5); (-2, 1)] []))).1
   = Return tt).
Proof.
  apply (negative_intervals_not_validated _ 0%nat [(0, 5); (-2, 1)]). reflexivity.
Defined.

(** C5 as stated fails: the interval [(-2, 1)] has a negative start, both
    [addReads] and [calculateDepth] return, and the stored profile counts
    two reads at position [4], which only [(0, 5)] covers. *)
Lemma negative_start_accepted :
  Exists (λ pr : read, pr.1 < 0 ∨ pr.2 < 0) [(0, 5); (-2, 1)] ∧
  outcome_of (a ← construct [] [];
              addReads a [(0, 5); (-2, 1)];;
              calculateDepth a;;
              d ← getDepths a; load_ints d) = Return [1; 1; 1; 1; 2; 0] ∧
  coverage [(0, 5); (-2, 1)] 4 = 1.
Proof.
  split; [|split; reflexivity].
  apply Exists_cons_tl, Exists_cons_hd. simpl. lia.
Qed.
End unvalidated.

(** * Instances built with default arguments *)

(** C10 fails on the code: the default [reads=[]] and [loci=[]] are one
    list each, which every instance built without arguments takes as its
    own; what is appended to [a] is read from [b].  The depths are a new
    list per instance, and instances built on lists of their own, as in
    src/test.py, share nothing. *)
Theorem default_arguments_are_shared :
  outcome_of (a ← __init__ None None;
              b ← __init__ None None;
              addReads a [(1, 2)];;
              addLoci a [7];;
              rb ← getReads b; lb ← getLoci b;
              r ← load_reads rb; l ← load_ints lb;
              mret (bool_decide (a ≠ b), r, l))
  = Return (true, [(1, 2)], [7]) ∧
  outcome_of (a ← construct [] [];
              b ← construct [] [];
              addReads a [(1, 2)];;
              addLoci a [7];;
              rb ← getReads b; lb ← getLoci b;
              r ← load_reads rb; l ← load_ints lb;
              mret (bool_decide (a ≠ b), r, l))
  = Return (true, [], []).
Proof. split; reflexivity. Qed.

(** * Further properties of the computation *)

Section more_max_position.
Implicit Types (rs : list read) (m : Z).

Lemma foldr_max_attained rs m :
  foldr max_end m rs = m ∨ ∃ pr, pr ∈ rs ∧ foldr max_end m rs = pr.1 + pr.2.
Proof.
  induction rs as [|pr rs IH]; simpl; [by left|].
  unfold max_end at 1 3.
  destruct (Z.max_spec (pr.1 + pr.2) (foldr max_end m rs)) as [[_ ->]|[_ ->]].
  - destruct IH as [IH|(x & Hx & IH)]; [by left|].
    right. exists x. split; [by right|done].
  - right. exists pr. split; [by left|done].
Qed.

(** X1.  [__getMaxPosition] on any list of reads, negative ones included: the
    result is never negative, no end [start + length] exceeds it, and it is
    [0] or the end of one of the reads. *)
Theorem getMaxPosition_clamped_maximum rs :
  0 ≤ __getMaxPosition rs ∧
  Forall (λ pr, pr.1 + pr.2 ≤ __getMaxPosition rs) rs ∧
  (__getMaxPosition rs = 0 ∨
   ∃ pr, pr ∈ rs ∧ __getMaxPosition rs = pr.1 + pr.2).
Proof.
  split; [apply getMaxPosition_nonneg|]. split; [apply getMaxPosition_ge|].
  unfold __getMaxPosition. rewrite max_loop_foldr. apply foldr_max_attained.
Qed.
End more_max_position.

Section more_calculateDepth.
Implicit Types (st : state) (self other : loc) (rs : list read).

Lemma sort_reads_Permutation_eq rs rs' : rs ≡ₚ rs' → sort_reads rs = sort_reads rs'.
Proof.
  intros Hp. apply sort_reads_unique; [apply sort_reads_sorted|].
  by rewrite sort_reads_Permutation.
Qed.

Lemma sort_reads_idempotent rs : sort_reads (sort_reads rs) = sort_reads rs.
Proof. apply sort_reads_Permutation_eq, sort_reads_Permutation. Qed.

Lemma calculateDepth_reads_after st self rs :
  reads_of st self = Some rs →
  reads_of (calculateDepth self st).2 self = Some (sort_reads rs).
Proof.
  intros (e & He & Hrs)%reads_of_Some.
  rewrite (calculateDepth_run _ _ _ _ He Hrs).
  unfold reads_of.
  destruct (accumulate (sort_reads rs)); simpl; [rewrite lookup_insert_eq|rewrite He..];
    simpl; apply lookup_insert_eq.
Qed.

Lemma calculateDepth_depths_after st self rs :
  reads_of st self = Some rs →
  (calculateDepth self st).1 = Return tt →
  ∃ sums, accumulate (sort_reads rs) = Return sums ∧
          depths_of (calculateDepth self st).2 self = Some sums.
Proof.
  intros Hrs Hret. rewrite (calculateDepth_outcome _ _ _ Hrs) in Hret.
  destruct (accumulate (sort_reads rs)) as [sums| |] eqn:E; [|done..].
  exists sums. split; [done|].
  by destruct (calculateDepth_Return _ _ _ _ Hrs E) as (st' & -> & Hd & _).
Qed.

(** X2.  Whenever [calculateDepth] returns, on any reads, the stored profile has
    [__getMaxPosition(reads) + 1] entries: it is never empty. *)
Theorem calculateDepth_profile_never_empty st self rs :
  reads_of st self = Some rs →
  (calculateDepth self st).1 = Return tt →
  ∃ d, depths_of (calculateDepth self st).2 self = Some d ∧
       Z.of_nat (length d) = __getMaxPosition rs + 1 ∧ d ≠ [].
Proof.
  intros Hrs Hret.
  destruct (calculateDepth_depths_after _ _ _ Hrs Hret) as (sums & E & Hd).
  exists sums. split; [done|].
  assert (Z.of_nat (length sums) = __getMaxPosition rs + 1) as Hlen.
  { destruct (accumulate_cases (sort_reads rs)) as [[Hall _]|[_ E']]; [|congruence].
    destruct (accumulate_Return _ Hall) as (t & _ & Lt & _ & E').
    rewrite E in E'. injection E' as ->.
    rewrite length_prefix_sums, Lt.
    rewrite (getMaxPosition_Permutation _ _ (sort_reads_Permutation rs)).
    pose proof (getMaxPosition_nonneg rs). lia. }
  split; [done|]. intros ->. simpl in Hlen.
  pose proof (getMaxPosition_nonneg rs). lia.
Qed.

Lemma calculateDepth_profile_never_empty_witness :
  ∃ d, depths_of (calculateDepth 0%nat
                    (state_after (construct [(0, 5); (-2, 1)] []))).2 0%nat = Some d ∧
       Z.of_nat (length d) = __getMaxPosition [(0, 5); (-2, 1)] + 1 ∧ d ≠ [].
Proof.
  apply (calculateDepth_profile_never_empty _ 0%nat [(0, 5); (-2, 1)]); reflexivity.
Defined.

(** X3.  [calculateDepth] sorts the reads in place before anything else: the
    ReadSet is left sorted, with the same intervals, also when the
    computation raises. *)
Theorem calculateDepth_leaves_reads_sorted st self rs :
  reads_of st self = Some rs →
  ∃ rs', reads_of (calculateDepth self st).2 self = Some rs' ∧
         StronglySorted key_le rs' ∧ rs' ≡ₚ rs.
Proof.
  intros Hrs. exists (sort_reads rs).
  split; [by apply calculateDepth_reads_after|].
  split; [apply sort_reads_sorted|apply sort_reads_Permutation].
Qed.

Lemma calculateDepth_leaves_reads_sorted_witness :
  ∃ rs', reads_of (calculateDepth 0%nat
                     (state_after (construct [(5, 1); (-30, 1); (0, 2)] []))).2 0%nat
         = Some rs' ∧
         StronglySorted key_le rs' ∧ rs' ≡ₚ [(5, 1); (-30, 1); (0, 2)].
Proof.
  apply (calculateDepth_leaves_reads_sorted _ 0%nat [(5, 1); (-30, 1); (0, 2)]).
  reflexivity.
Defined.

(** X4.  Running [calculateDepth] a second time changes nothing: the outcome,
    the reads and the contents of the profile are those of the first run. *)
Theorem calculateDepth_idempotent st self rs :
  reads_of st self = Some rs →
  (calculateDepth self (calculateDepth self st).2).1 = (calculateDepth self st).1 ∧
  reads_of (calculateDepth self (calculateDepth self st).2).2 self
  = reads_of (calculateDepth self st).2 self ∧
  ((calculateDepth self st).1 = Return tt →
   depths_of (calculateDepth self (calculateDepth self st).2).2 self
   = depths_of (calculateDepth self st).2 self).
Proof.
  intros Hrs. pose proof (calculateDepth_reads_after _ _ _ Hrs) as Hrs1.
  split; [|split].
  - rewrite (calculateDepth_outcome _ _ _ Hrs1), (calculateDepth_outcome _ _ _ Hrs).
    by rewrite sort_reads_idempotent.
  - rewrite (calculateDepth_reads_after _ _ _ Hrs1), Hrs1.
    by rewrite sort_reads_idempotent.
  - intros Hret.
    destruct (calculateDepth_depths_after _ _ _ Hrs Hret) as (sums & E & ->).
    assert ((calculateDepth self (calculateDepth self st).2).1 = Return tt) as Hret1.
    { rewrite (calculateDepth_outcome _ _ _ Hrs1), sort_reads_idempotent.
      by rewrite E. }
    destruct (calculateDepth_depths_after _ _ _ Hrs1 Hret1) as (sums' & E' & ->).
    rewrite sort_reads_idempotent in E'. congruence.
Qed.

Lemma calculateDepth_idempotent_witness :
  (calculateDepth 0%nat
     (calculateDepth 0%nat (state_after (construct [(10, 30); (20, 40)] []))).2).1
  = (calculateDepth 0%nat (state_after (construct [(10, 30); (20, 40)] []))).1 ∧
  reads_of (calculateDepth 0%nat
     (calculateDepth 0%nat (state_after (construct [(10, 30); (20, 40)] []))).2).2 0%nat
  = reads_of (calculateDepth 0%nat
                (state_after (construct [(10, 30); (20, 40)] []))).2 0%nat ∧
  ((calculateDepth 0%nat (state_after (construct [(10, 30); (20, 40)] []))).1
   = Return tt →
   depths_of (calculateDepth 0%nat
     (calculateDepth 0%nat (state_after (construct [(10, 30); (20, 40)] []))).2).2 0%nat
   = depths_of (calculateDepth 0%nat
                  (state_after (construct [(10, 30); (20, 40)] []))).2 0%nat).
Proof.
  apply (calculateDepth_idempotent _ 0%nat [(10, 30); (20, 40)]). reflexivity.
Defined.

(** X5.  The order in which the reads were appended does not matter: two
    instances whose ReadSets are permutations of each other get the same
    outcome, the same sorted reads and the same profile. *)
Theorem calculateDepth_order_invariant st1 self1 rs1 st2 self2 rs2 :
  reads_of st1 self1 = Some rs1 →
  reads_of st2 self2 = Some rs2 →
  rs1 ≡ₚ rs2 →
  (calculateDepth self1 st1).1 = (calculateDepth self2 st2).1 ∧
  reads_of (calculateDepth self1 st1).2 self1
  = reads_of (calculateDepth self2 st2).2 self2 ∧
  ((calculateDepth self1 st1).1 = Return tt →
   depths_of (calculateDepth self1 st1).2 self1
   = depths_of (calculateDepth self2 st2).2 self2).
Proof.
  intros H1 H2 Hp. pose proof (sort_reads_Permutation_eq _ _ Hp) as Hs.
  split; [|split].
  - rewrite (calculateDepth_outcome _ _ _ H1), (calculateDepth_outcome _ _ _ H2).
    by rewrite Hs.
  - rewrite (calculateDepth_reads_after _ _ _ H1), (calculateDepth_reads_after _ _ _ H2).
    by rewrite Hs.
  - intros Hret.
    destruct (calculateDepth_depths_after _ _ _ H1 Hret) as (sums & E & ->).
    assert ((calculateDepth self2 st2).1 = Return tt) as Hret2.
    { rewrite (calculateDepth_outcome _ _ _ H2), <- Hs. by rewrite E. }
    destruct (calculateDepth_depths_after _ _ _ H2 Hret2) as (sums' & E' & ->).
    congruence.
Qed.

Lemma calculateDepth_order_invariant_witness :
  (calculateDepth 0%nat (state_after (construct [(10, 30); (20, 40)] []))).1
  = (calculateDepth 0%nat (state_after (construct [(20, 40); (10, 30)] [7]))).1 ∧
  reads_of (calculateDepth 0%nat
              (state_after (construct [(10, 30); (20, 40)] []))).2 0%nat
  = reads_of (calculateDepth 0%nat
                (state_after (construct [(20, 40); (10, 30)] [7]))).2 0%nat ∧
  ((calculateDepth 0%nat (state_after (construct [(10, 30); (20, 40)] []))).1
   = Return tt →
   depths_of (calculateDepth 0%nat
                (state_after (construct [(10, 30); (20, 40)] []))).2 0%nat
   = depths_of (calculateDepth 0%nat
                  (state_after (construct [(20, 40); (10, 30)] [7]))).2 0%nat).
Proof.
  apply (calculateDepth_order_invariant _ 0%nat [(10, 30); (20, 40)]
           _ 0%nat [(20, 40); (10, 30)]).
  - reflexivity.
  - reflexivity.
  - apply Permutation_swap.
Defined.
End more_calculateDepth.

(** * The profile as a whole *)

Section whole_profile.
Implicit Types (st : state) (self : loc) (rs : list read) (d : list Z).

Lemma coverage_cons pr rs p :
  coverage (pr :: rs) p = (if decide (covers p pr) then 1 else 0) + coverage rs p.
Proof. unfold coverage. rewrite filter_cons. case_decide; simpl length; lia. Qed.

Lemma coverage_beyond_ends rs p :
  Forall (λ pr, pr.1 + pr.2 ≤ p) rs → coverage rs p = 0.
Proof.
  induction 1 as [|pr rs Hpr _ IH]; [done|].
  rewrite coverage_cons, IH. unfold covers. case_decide; lia.
Qed.

(** X6.  On non-negative reads the last entry of the profile, [depths[-1]], is
    [0]: the array reaches one position past the last covered one. *)
Theorem calculateDepth_last_entry_zero st self rs :
  reads_of st self = Some rs → Forall nonneg rs →
  ∃ st' d, calculateDepth self st = (Return tt, st') ∧
           depths_of st' self = Some d ∧
           last d = Some 0 ∧
           depthAt self (-1) st' = (Return 0, st').
Proof.
  intros Hrs Hnn.
  destruct (calculateDepth_nonneg _ _ _ Hrs Hnn) as (st' & d & Hrun & Hd & Hlen & Hval).
  pose proof (getMaxPosition_nonneg rs) as Hm.
  assert (d !! Z.to_nat (Z.of_nat (length d) + -1) = Some 0) as Hlast.
  { rewrite Hval by lia. f_equal. apply coverage_beyond_ends.
    eapply Forall_impl; [apply getMaxPosition_ge|]. simpl. intros pr Hpr. lia. }
  exists st', d. split; [done|]. split; [done|]. split.
  - rewrite last_lookup. rewrite <- Hlast. f_equal. lia.
  - rewrite (depthAt_run _ _ _ _ Hd).
    assert (- Z.of_nat (length d) ≤ -1 < 0) as Hwrap by lia.
    by rewrite (py_getitem_Some d (-1) _ 0 (py_index_wraps _ _ Hwrap) Hlast).
Qed.

Lemma calculateDepth_last_entry_zero_witness :
  ∃ st' d, calculateDepth 0%nat (state_after (construct [(10, 30); (20, 40)] []))
           = (Return tt, st') ∧
           depths_of st' 0%nat = Some d ∧
           last d = Some 0 ∧
           depthAt 0%nat (-1) st' = (Return 0, st').
Proof.
  apply (calculateDepth_last_entry_zero _ 0%nat [(10, 30); (20, 40)]).
  - reflexivity.
  - apply (bool_decide_unpack _). vm_compute. exact I.
Defined.

Lemma sum_Z_lookup d : ∀ f,
  (∀ p, (p < length d)%nat → d !! p = Some (f p)) →
  sum_Z d = sum_upto f (length d).
Proof.
  induction d as [|x d IH]; intros f Hf; [done|].
  cbn [length]. rewrite sum_upto_shift. cbn [sum_Z foldr]. fold (sum_Z d).
  rewrite (IH (f ∘ S)).
  - f_equal. specialize (Hf O ltac:(simpl; lia)). simpl in Hf. congruence.
  - intros p Hp. apply (Hf (S p)). simpl. lia.
Qed.

Lemma sum_upto_covers pr (k : nat) :
  nonneg pr →
  sum_upto (λ p, if decide (covers (Z.of_nat p) pr) then 1 else 0) k
  = Z.max 0 (Z.min (Z.of_nat k) (pr.1 + pr.2) - pr.1).
Proof.
  intros [Hs Hl]. induction k as [|k IH]; [simpl; lia|].
  cbn [sum_upto]. rewrite IH. unfold covers. case_decide; lia.
Qed.

Lemma sum_upto_coverage rs (n : nat) :
  Forall nonneg rs → Forall (λ pr, pr.1 + pr.2 ≤ Z.of_nat n) rs →
  sum_upto (λ p, coverage rs (Z.of_nat p)) n = sum_Z rs.*2.
Proof.
  induction rs as [|pr rs IH]; intros Hnn Hn.
  - apply sum_upto_zero.
  - apply Forall_cons in Hnn as [Hpr Hnn]. apply Forall_cons in Hn as [Hprn Hn].
    rewrite (sum_upto_ext _
      (λ p, (if decide (covers (Z.of_nat p) pr) then 1 else 0)
            + coverage rs (Z.of_nat p))) by (intros; apply coverage_cons).
    rewrite (sum_upto_add
      (λ p, if decide (covers (Z.of_nat p) pr) then 1 else 0)
      (λ p, coverage rs (Z.of_nat p))).
    rewrite IH, sum_upto_covers by done.
    destruct Hpr as [Hs Hl]. cbn [fmap list_fmap sum_Z foldr]. fold (sum_Z rs.*2).
    simpl. lia.
Qed.

(** X7.  On non-negative reads the depths add up to the total length of the
    reads: every read counts once at each position it covers. *)
Theorem calculateDepth_sum_of_depths st self rs :
  reads_of st self = Some rs → Forall nonneg rs →
  ∃ st' d, calculateDepth self st = (Return tt, st') ∧
           depths_of st' self = Some d ∧
           sum_Z d = sum_Z rs.*2.
Proof.
  intros Hrs Hnn.
  destruct (calculateDepth_nonneg _ _ _ Hrs Hnn) as (st' & d & Hrun & Hd & Hlen & Hval).
  exists st', d. split; [done|]. split; [done|].
  rewrite (sum_Z_lookup d (λ p, coverage rs (Z.of_nat p)) Hval).
  apply sum_upto_coverage; [done|].
  eapply Forall_impl; [apply getMaxPosition_ge|]. simpl. intros pr Hpr.
  pose proof (getMaxPosition_nonneg rs). lia.
Qed.

Lemma calculateDepth_sum_of_depths_witness :
  ∃ st' d, calculateDepth 0%nat
             (state_after (construct [(10, 20); (20, 40); (15, 15)] [0; 50; 15; 30]))
           = (Return tt, st') ∧
           depths_of st' 0%nat = Some d ∧
           sum_Z d = sum_Z [(10, 20); (20, 40); (15, 15)].*2.
Proof.
  apply (calculateDepth_sum_of_depths _ 0%nat [(10, 20); (20, 40); (15, 15)]).
  - reflexivity.
  - apply (bool_decide_unpack _). vm_compute. exact I.
Defined.
End whole_profile.

(** * What the methods leave alone, and what they share *)

Section frames.
Implicit Types (st : state) (self other a b : loc) (e : engine).
Implicit Types (rs : list read) (d : list Z).


Lemma do_call_touches st self e c :
  objs st !! self = Some e →
  objs (do_call self c st).2 = objs st ∧
  ∀ l : loc, l ≠ loci e → ilists (do_call self c st).2 !! l = ilists st !! l.
Proof.
  intros He.
  destruct c as [readslist|locilist|]; simpl;
    unfold addReads, addLoci, preprocessReadData, mbind, M_bind, getattr,
           load_reads, store_reads, load_ints, store_ints;
    rewrite He; simpl.
  - by destruct (rlists st !! reads e) eqn:E; simpl; [rewrite E; simpl|].
  - destruct (ilists st !! loci e) as [old|] eqn:E; simpl; [rewrite E; simpl|];
      [|done].
    split; [done|]. intros l Hl. by rewrite lookup_insert_ne.
  - by destruct (rlists st !! reads e) eqn:E; simpl; [rewrite E; simpl|].
Qed.

(** X10.  Nothing invalidates a computed profile: appending reads or loci and
    sorting the reads leave [self.depths] as the last [calculateDepth] made
    it, until [calculateDepth] is called again. *)
Theorem appends_leave_depths_stale st self e cs :
  objs st !! self = Some e → loci e ≠ depths e →
  depths_of (do_calls self cs st) self = depths_of st self.
Proof.
  revert st. induction cs as [|c cs IH]; intros st He Hne; [done|].
  destruct (do_call_touches st self e c He) as [Hobjs Hlists].
  cbn [do_calls foldl]. fold (do_calls self cs (do_call self c st).2).
  rewrite IH; [|by rewrite Hobjs|done].
  unfold depths_of. rewrite Hobjs, He. simpl. apply Hlists. done.
Qed.

Lemma appends_leave_depths_stale_witness :
  depths_of (do_calls 0%nat [AddReads [(100, 5)]; AddLoci [3]; PreprocessReadData]
               (state_after (a ← construct [(0, 2)] []; calculateDepth a))) 0%nat
  = depths_of (state_after (a ← construct [(0, 2)] []; calculateDepth a)) 0%nat.
Proof.
  apply (appends_leave_depths_stale _ 0%nat (Engine 1 1 3)).
  - reflexivity.
  - done.
Defined.

(** X11.  Two appends are one append of the concatenation: [addReads] only
    accumulates, keeping duplicates and the order of arrival. *)
Theorem addReads_accumulates st self rs l1 l2 :
  reads_of st self = Some rs →
  reads_of (addReads self l2 (addReads self l1 st).2).2 self = Some (rs ++ l1 ++ l2) ∧
  (addReads self l2 (addReads self l1 st).2).1 = Return tt ∧
  (addReads self l2 (addReads self l1 st).2).2 = (addReads self (l1 ++ l2) st).2.
Proof.
  intros Hrs.
  destruct (addReads_run st self rs l1 Hrs) as (st1 & E1 & H1).
  destruct (addReads_run st1 self (rs ++ l1) l2 H1) as (st2 & E2 & H2).
  rewrite E1. simpl. rewrite E2. simpl.
  split; [by rewrite H2, app_assoc|]. split; [done|].
  apply reads_of_Some in Hrs as (e & He & Hrs).
  revert E1 E2. unfold addReads, mbind, M_bind, getattr, load_reads, store_reads.
  run_store. intros [= <-]. simpl. run_store. rewrite lookup_insert_eq. simpl.
  rewrite lookup_insert_eq. intros [= <-].
  by rewrite insert_insert_eq, app_assoc.
Qed.

Lemma addReads_accumulates_witness :
  reads_of (addReads 0%nat [(20, 10)]
              (addReads 0%nat [(20, 40); (20, 40)]
                 (state_after (construct [(10, 30)] []))).2).2 0%nat
  = Some ([(10, 30)] ++ [(20, 40); (20, 40)] ++ [(20, 10)]) ∧
  (addReads 0%nat [(20, 10)]
     (addReads 0%nat [(20, 40); (20, 40)]
        (state_after (construct [(10, 30)] []))).2).1 = Return tt ∧
  (addReads 0%nat [(20, 10)]
     (addReads 0%nat [(20, 40); (20, 40)]
        (state_after (construct [(10, 30)] []))).2).2
  = (addReads 0%nat ([(20, 40); (20, 40)] ++ [(20, 10)])
       (state_after (construct [(10, 30)] []))).2.
Proof. apply (addReads_accumulates _ 0%nat [(10, 30)]). reflexivity. Defined.

(** X12.  [addReads] changes one object, the list [self.reads]: another instance
    sees the appended reads exactly when it holds that same list, and keeps
    its own reads otherwise. *)
Theorem addReads_seen_through_shared_list st a b ea eb rs l :
  objs st !! a = Some ea → objs st !! b = Some eb →
  rlists st !! reads ea = Some rs →
  reads_of (addReads a l st).2 b
  = if decide (reads eb = reads ea) then Some (rs ++ l) else reads_of st b.
Proof.
  intros Ha Hb Hrs.
  unfold addReads, mbind, M_bind, getattr, load_reads, store_reads. run_store.
  unfold reads_of. simpl. rewrite Hb. simpl.
  case_decide as Heq.
  - rewrite Heq. apply lookup_insert_eq.
  - by rewrite lookup_insert_ne.
Qed.

Lemma addReads_seen_through_shared_list_witness :
  reads_of (addReads 0%nat [(1, 2)]
              (state_after (__init__ None None;; __init__ None None))).2 1%nat
  = if decide (reads (Engine 0 0 2) = reads (Engine 0 0 1))
    then Some ([] ++ [(1, 2)])
    else reads_of (state_after (__init__ None None;; __init__ None None)) 1%nat.
Proof.
  apply (addReads_seen_through_shared_list _ 0%nat 1%nat
           (Engine 0 0 1) (Engine 0 0 2) [] [(1, 2)]); reflexivity.
Defined.

(** X13.  An instance built without the [reads] argument is not born empty: it
    holds the one default list, with everything that was appended through
    earlier instances built the same way. *)
Theorem default_instance_inherits_reads st a ea rs l loci_arg :
  objs st !! a = Some ea → reads ea = default_reads →
  rlists st !! default_reads = Some rs →
  ∃ b st', __init__ None loci_arg (addReads a l st).2 = (Return b, st') ∧
           b ≠ a ∧ reads_of st' b = Some (rs ++ l).
Proof.
  intros Ha Hdef Hrs. rewrite <- Hdef in Hrs.
  eexists _, _. split; [reflexivity|].
  unfold addReads, mbind, M_bind, getattr, load_reads, store_reads. run_store.
  split.
  - intros Heq. apply (is_fresh (dom (objs st))). rewrite Heq.
    apply elem_of_dom. eauto.
  - unfold reads_of. simpl. rewrite lookup_insert_eq. simpl.
    rewrite <- Hdef. apply lookup_insert_eq.
Qed.

Lemma default_instance_inherits_reads_witness :
  ∃ b st', __init__ None None
             (addReads 0%nat [(10, 20); (20, 40); (15, 15)]
                (state_after (__init__ None None))).2 = (Return b, st') ∧
           b ≠ 0%nat ∧ reads_of st' b = Some ([] ++ [(10, 20); (20, 40); (15, 15)]).
Proof.
  apply (default_instance_inherits_reads _ 0%nat (Engine 0 0 1) []); reflexivity.
Defined.
End frames.

(** * The methods that read and write CSV files *)

Section file_rows.
Context {A : Type}.
Implicit Types (l : list A) (i : Z).

Lemma py_item_Some l i x :
  0 ≤ i → l !! Z.to_nat i = Some x → py_item l i = Return x.
Proof.
  intros Hi Hx. unfold py_item.
  rewrite py_index_in_bounds, Hx; [done|].
  apply lookup_lt_Some in Hx. lia.
Qed.

Lemma py_item_short l i : Z.of_nat (length l) ≤ i → py_item l i = Raise IndexError.
Proof.
  intros Hi. unfold py_item.
  by rewrite (proj2 (py_index_None _ _)) by lia.
Qed.

Lemma py_item_not_Stuck l i : py_item l i ≠ Stuck.
Proof.
  unfold py_item. destruct (py_index (length l) i); [|done].
  by destruct (l !! _).
Qed.
End file_rows.

Section csv_properties.
Variable int : string → option Z.
Implicit Types (st : state) (self : loc) (file input : list (list string)).
Implicit Types (row : list string) (rs pairs : list read) (zs ls d : list Z).

Lemma comprehension_Forall2 {A B} (f : A → file_outcome B) (rows : list A) ys :
  Forall2 (λ x y, f x = FReturn y) rows ys →
  comprehension f rows = FReturn ys.
Proof. induction 1 as [|x y rows ys Hx _ IH]; simpl; [done|]. by rewrite Hx, IH. Qed.

Lemma comprehension_Exists {A B} (f : A → file_outcome B) (rows : list A) :
  (∀ x, f x ≠ FStuck) →
  Exists (λ x, ∃ e, f x = FRaise e) rows →
  ∃ e, comprehension f rows = FRaise e.
Proof.
  intros Hstuck. induction 1 as [x rows [e He]|x rows _ [e IH]]; simpl.
  - rewrite He. eauto.
  - destruct (f x) as [y|e'|] eqn:E; simpl; [|eauto|by destruct (Hstuck x)].
    rewrite IH. eauto.
Qed.

Lemma read_of_row_Some row c0 c1 rest s l :
  row = c0 :: c1 :: rest → int c0 = Some s → int c1 = Some l →
  read_of_row int row = FReturn (s, l).
Proof.
  intros -> H0 H1. unfold read_of_row, py_int.
  rewrite (py_item_Some _ 0 c0), (py_item_Some _ 1 c1) by done.
  simpl. rewrite H0. simpl. by rewrite H1.
Qed.

Lemma read_of_row_not_Stuck row : read_of_row int row ≠ FStuck.
Proof.
  unfold read_of_row, py_int.
  pose proof (py_item_not_Stuck row 0). pose proof (py_item_not_Stuck row 1).
  destruct (py_item row 0) as [c0| |]; simpl; [|done..].
  destruct (int c0); simpl; [|done].
  destruct (py_item row 1) as [c1| |]; simpl; [|done..].
  by destruct (int c1).
Qed.

Lemma read_of_row_bad row : bad_read_row int row → ∃ e, read_of_row int row = FRaise e.
Proof.
  assert (∀ y, read_of_row int row = FReturn y → ¬ bad_read_row int row) as Hgood.
  { intros y. unfold read_of_row, py_int.
    destruct row as [|c0 [|c1 rest]].
    - by rewrite py_item_short.
    - rewrite (py_item_Some _ 0 c0) by done. simpl.
      by destruct (int c0).
    - rewrite (py_item_Some _ 0 c0), (py_item_Some _ 1 c1) by done. simpl.
      destruct (int c0) eqn:E0; simpl; [|done].
      destruct (int c1) eqn:E1; simpl; [|done].
      intros _ [Hlen|[(c & [= <-] & Hc)|(c & [= <-] & Hc)]];
        [simpl in Hlen; lia|congruence..]. }
  intros Hbad. destruct (read_of_row int row) as [y|e|] eqn:E.
  - by destruct (Hgood y).
  - eauto.
  - by destruct (read_of_row_not_Stuck row).
Qed.

Lemma locus_of_row_Some row c rest z :
  row = c :: rest → int c = Some z → locus_of_row int row = FReturn z.
Proof.
  intros -> Hc. unfold locus_of_row, py_int.
  rewrite (py_item_Some _ 0 c) by done. simpl. by rewrite Hc.
Qed.

Lemma locus_of_row_bad row : bad_locus_row int row → ∃ e, locus_of_row int row = FRaise e.
Proof.
  unfold locus_of_row, py_int. intros [->|(c & Hc & Hint)].
  - rewrite py_item_short by done. simpl. eauto.
  - rewrite (py_item_Some _ 0 c) by done. simpl. rewrite Hint. eauto.
Qed.

(** X14.  [addReadsFromCSV] skips the first row, whatever it holds, and appends
    one read per remaining row, made of its first two cells; further cells
    are ignored. *)
Theorem addReadsFromCSV_appends_rows st self rs file pairs :
  reads_of st self = Some rs →
  Forall2 (λ row pr, ∃ c0 c1 rest, row = c0 :: c1 :: rest ∧
                                   int c0 = Some pr.1 ∧ int c1 = Some pr.2)
          (drop 1 file) pairs →
  (addReadsFromCSV int self file st).1 = FReturn tt ∧
  reads_of (addReadsFromCSV int self file st).2 self = Some (rs ++ pairs).
Proof.
  intros Hrs Hrows. unfold addReadsFromCSV.
  rewrite (comprehension_Forall2 _ _ pairs).
  - destruct (addReads_run st self rs pairs Hrs) as (st' & -> & Hrs'). done.
  - eapply Forall2_impl; [exact Hrows|]. simpl.
    intros row [s l] (c0 & c1 & rest & Hrow & H0 & H1).
    by apply (read_of_row_Some row c0 c1 rest).
Qed.

(** X15.  One bad data row (a blank line, a row with a single cell, a cell that
    is no integer) makes [addReadsFromCSV] raise, and then no read of the
    file has been appended, not even those of the rows before it. *)
Theorem addReadsFromCSV_all_or_nothing st self file :
  Exists (bad_read_row int) (drop 1 file) →
  ∃ e, addReadsFromCSV int self file st = (FRaise e, st).
Proof.
  intros Hbad. unfold addReadsFromCSV.
  destruct (comprehension_Exists (read_of_row int) (drop 1 file)) as [e ->].
  - apply read_of_row_not_Stuck.
  - eapply Exists_impl; [exact Hbad|]. apply read_of_row_bad.
  - eauto.
Qed.

(** X16.  [addLociFromCSV] skips the first row and appends the first cell of
    every other row; one bad row and nothing is appended. *)
Theorem addLociFromCSV_appends_rows st self ls file zs :
  loci_of st self = Some ls →
  (Forall2 (λ row z, ∃ c rest, row = c :: rest ∧ int c = Some z) (drop 1 file) zs →
   (addLociFromCSV int self file st).1 = FReturn tt ∧
   loci_of (addLociFromCSV int self file st).2 self = Some (ls ++ zs)) ∧
  (Exists (bad_locus_row int) (drop 1 file) →
   ∃ e, addLociFromCSV int self file st = (FRaise e, st)).
Proof.
  intros Hls. unfold addLociFromCSV. split.
  - intros Hrows. rewrite (comprehension_Forall2 _ _ zs).
    + unfold loci_of in Hls.
      destruct (objs st !! self) as [e|] eqn:He; [|done]. simpl in Hls.
      unfold addLoci, mbind, M_bind, getattr, load_ints, store_ints. run_store.
      split; [done|]. unfold loci_of. simpl. rewrite He. simpl.
      apply lookup_insert_eq.
    + eapply Forall2_impl; [exact Hrows|]. simpl.
      intros row z (c & rest & Hrow & Hc). by apply (locus_of_row_Some row c rest).
  - intros Hbad.
    destruct (comprehension_Exists (locus_of_row int) (drop 1 file)) as [e ->].
    + intros row. unfold locus_of_row, py_int.
      pose proof (py_item_not_Stuck row 0).
      destruct (py_item row 0) as [c| |]; simpl; [|done..]. by destruct (int c).
    + eapply Exists_impl; [exact Hbad|]. apply locus_of_row_bad.
    + eauto.
Qed.
End csv_properties.

Lemma addReadsFromCSV_appends_rows_witness :
  (addReadsFromCSV int_decimal 0%nat
     [["start"; "length"]; ["10"; "30"]; ["20"; "40"; "note"]]
     (state_after (construct [] []))).1 = FReturn tt ∧
  reads_of (addReadsFromCSV int_decimal 0%nat
              [["start"; "length"]; ["10"; "30"]; ["20"; "40"; "note"]]
              (state_after (construct [] []))).2 0%nat
  = Some ([] ++ [(10, 30); (20, 40)]).
Proof.
  apply (addReadsFromCSV_appends_rows int_decimal _ 0%nat []
           [["start"; "length"]; ["10"; "30"]; ["20"; "40"; "note"]]
           [(10, 30); (20, 40)]).
  - reflexivity.
  - simpl. repeat (constructor; [by eexists _, _, _|]). constructor.
Defined.

Lemma addReadsFromCSV_all_or_nothing_witness :
  ∃ e, addReadsFromCSV int_decimal 0%nat
         [["start"; "length"]; ["10"; "30"]; []; ["20"; "40"]]
         (state_after (construct [] []))
       = (FRaise e, state_after (construct [] [])).
Proof.
  apply (addReadsFromCSV_all_or_nothing int_decimal).
  simpl. apply Exists_cons_tl, Exists_cons_hd. left. simpl. lia.
Defined.

Lemma addLociFromCSV_appends_rows_witness :
  (Forall2 (λ row z, ∃ c rest, row = c :: rest ∧ int_decimal c = Some z)
           (drop 1 [["position"; "depth"]; ["5"]; ["15"]; ["30"]]) [5; 15; 30] →
   (addLociFromCSV int_decimal 0%nat [["position"; "depth"]; ["5"]; ["15"]; ["30"]]
      (state_after (construct [] []))).1 = FReturn tt ∧
   loci_of (addLociFromCSV int_decimal 0%nat
              [["position"; "depth"]; ["5"]; ["15"]; ["30"]]
              (state_after (construct [] []))).2 0%nat = Some ([] ++ [5; 15; 30])) ∧
  (Exists (bad_locus_row int_decimal)
          (drop 1 [["position"; "depth"]; ["5"]; ["15"]; ["30"]]) →
   ∃ e, addLociFromCSV int_decimal 0%nat
          [["position"; "depth"]; ["5"]; ["15"]; ["30"]]
          (state_after (construct [] []))
        = (FRaise e, state_after (construct [] []))).
Proof.
  apply (addLociFromCSV_appends_rows int_decimal _ 0%nat []). reflexivity.
Defined.

Section csv_output.
Implicit Types (st : state) (self : loc) (d : list Z) (w : list (list cell)).

Lemma write_depths_from rest : ∀ visited w,
  write_depths (seq (length visited) (length rest)) (visited ++ rest) w
  = (Return tt,
     w ++ imap (λ i x, [Number (Z.of_nat (length visited + i)); Number x]) rest).
Proof.
  induction rest as [|x rest IH]; intros visited w.
  - simpl. by rewrite app_nil_r.
  - cbn [length seq write_depths].
    rewrite (py_getitem_Some _ _ (length visited) x).
    + specialize (IH (visited ++ [x]) (w ++ [[Number (Z.of_nat (length visited)); Number x]])).
      rewrite length_app in IH. simpl in IH. rewrite Nat.add_1_r in IH.
      rewrite <- app_assoc in IH. simpl in IH. rewrite IH.
      f_equal. rewrite <- app_assoc. f_equal. simpl. rewrite Nat.add_0_r. f_equal.
      apply imap_ext. intros i y _. simpl. do 3 f_equal. lia.
    + rewrite py_index_in_bounds, Nat2Z.id; [done|].
      rewrite length_app. simpl. lia.
    + by rewrite list_lookup_middle.
Qed.

(** X17.  [outputAllDepthsToCSV] never raises and writes one row per position of
    the profile, in order, each holding the position and its depth; the
    file has no header row, and is empty before [calculateDepth] has run. *)
Theorem outputAllDepthsToCSV_rows st self d :
  depths_of st self = Some d →
  outputAllDepthsToCSV self st
  = (Return tt, imap (λ i x, [Number (Z.of_nat i); Number x]) d).
Proof.
  intros (e & He & Hd)%depths_of_Some. unfold outputAllDepthsToCSV.
  rewrite He, Hd. exact (write_depths_from d [] []).
Qed.

Lemma outputAllDepthsToCSV_rows_witness :
  outputAllDepthsToCSV 0%nat (state_after (a ← construct [(0, 2)] []; calculateDepth a))
  = (Return tt, imap (λ i x, [Number (Z.of_nat i); Number x]) [1; 1; 0]).
Proof. apply (outputAllDepthsToCSV_rows _ 0%nat [1; 1; 0]). reflexivity. Defined.

Lemma write_loci_Return d zs : ∀ xs w,
  Forall2 (λ z x, py_getitem d z = Return x) zs xs →
  write_loci ((λ z, (z, 0)) <$> zs) d w
  = (Return tt, w ++ zip_with locus_line zs xs).
Proof.
  induction zs as [|z zs IH]; intros xs w Hxs.
  - apply Forall2_nil_inv_l in Hxs as ->. simpl. by rewrite app_nil_r.
  - apply Forall2_cons_inv_l in Hxs as (x & xs' & Hx & Hxs & ->).
    cbn [fmap list_fmap write_loci]. simpl fst. rewrite Hx.
    rewrite (IH xs' _ Hxs). by rewrite <- app_assoc.
Qed.

Lemma write_loci_Raise d zs1 z zs2 : ∀ xs1 w,
  Forall2 (λ z x, py_getitem d z = Return x) zs1 xs1 →
  py_getitem d z = Raise IndexError →
  write_loci ((λ z, (z, 0)) <$> (zs1 ++ z :: zs2)) d w
  = (Raise IndexError, w ++ zip_with locus_line zs1 xs1).
Proof.
  induction zs1 as [|z1 zs1 IH]; intros xs1 w Hxs Hz.
  - apply Forall2_nil_inv_l in Hxs as ->. simpl. rewrite Hz. by rewrite app_nil_r.
  - apply Forall2_cons_inv_l in Hxs as (x & xs' & Hx & Hxs & ->).
    cbn [app fmap list_fmap write_loci]. simpl fst. rewrite Hx.
    rewrite (IH xs' _ Hxs Hz). by rewrite <- app_assoc.
Qed.
End csv_output.

Section csv_populate.
Variable int : string → option Z.
Implicit Types (st : state) (self : loc) (input : list (list string)).
Implicit Types (d zs xs : list Z).

Lemma loci_rows_Return (rows : list (list string)) zs :
  Forall2 (λ row z, ∃ c rest, row = c :: rest ∧ int c = Some z) rows zs →
  comprehension (λ row, z ← locus_of_row int row; mret (z, 0)) rows
  = FReturn ((λ z, (z, 0)) <$> zs).
Proof.
  intros Hrows. apply comprehension_Forall2, Forall2_fmap_r.
  eapply Forall2_impl; [exact Hrows|]. simpl.
  intros row z (c & rest & Hrow & Hc).
  by rewrite (locus_of_row_Some int row c rest z).
Qed.

(** X18.  [populateLociCSVDepthField] writes the header row and then, for every
    data row of the input file, the locus of its first cell and the depth
    there, in the order of the input; the loci stored in the instance play
    no part. *)
Theorem populateLociCSVDepthField_rows st self d input zs xs :
  depths_of st self = Some d →
  Forall2 (λ row z, ∃ c rest, row = c :: rest ∧ int c = Some z) (drop 1 input) zs →
  Forall2 (λ z x, py_getitem d z = Return x) zs xs →
  populateLociCSVDepthField int self input st
  = (FReturn tt, Some (loci_header :: zip_with locus_line zs xs)).
Proof.
  intros Hd Hrows Hxs. unfold populateLociCSVDepthField.
  rewrite (loci_rows_Return _ _ Hrows), Hd.
  by rewrite (write_loci_Return d zs xs [loci_header] Hxs).
Qed.

(** X19.  A locus outside the profile makes [populateLociCSVDepthField] raise
    [IndexError] in the middle of writing: the output file is left with
    the header and the rows of the loci before it. *)
Theorem populateLociCSVDepthField_partial_output st self d input zs1 z zs2 xs1 :
  depths_of st self = Some d →
  Forall2 (λ row z, ∃ c rest, row = c :: rest ∧ int c = Some z)
          (drop 1 input) (zs1 ++ z :: zs2) →
  Forall2 (λ z x, py_getitem d z = Return x) zs1 xs1 →
  z < - Z.of_nat (length d) ∨ Z.of_nat (length d) ≤ z →
  populateLociCSVDepthField int self input st
  = (FRaise (Subscript IndexError),
     Some (loci_header :: zip_with locus_line zs1 xs1)).
Proof.
  intros Hd Hrows Hxs Hz. unfold populateLociCSVDepthField.
  rewrite (loci_rows_Return _ _ Hrows), Hd.
  rewrite (write_loci_Raise d zs1 z zs2 xs1 [loci_header] Hxs); [done|].
  by apply py_getitem_None, py_index_None.
Qed.

(** X20.  A bad row in the input file makes [populateLociCSVDepthField] raise
    before the output file is opened: it is left as it was. *)
Theorem populateLociCSVDepthField_bad_input st self input :
  Exists (bad_locus_row int) (drop 1 input) →
  ∃ e, populateLociCSVDepthField int self input st = (FRaise e, None).
Proof.
  intros Hbad. unfold populateLociCSVDepthField.
  destruct (comprehension_Exists (λ row, z ← locus_of_row int row; mret (z, 0))
              (drop 1 input)) as [e ->]; [| |eauto].
  - intros row. unfold locus_of_row, py_int.
    pose proof (py_item_not_Stuck row 0).
    destruct (py_item row 0) as [c| |]; simpl; [|done..]. by destruct (int c).
  - eapply Exists_impl; [exact Hbad|]. simpl. intros row Hrow.
    destruct (locus_of_row_bad int row Hrow) as [e ->]. simpl. eauto.
Qed.
End csv_populate.

Lemma populateLociCSVDepthField_rows_witness :
  populateLociCSVDepthField int_decimal 0%nat
    [["position"; "coverage"]; ["5"; "0"]; ["15"; "0"]; ["30"; "0"]]
    (state_after (a ← construct [(10, 30); (20, 40)] []; calculateDepth a))
  = (FReturn tt, Some (loci_header :: zip_with locus_line [5; 15; 30] [0; 1; 2])).
Proof.
  apply (populateLociCSVDepthField_rows int_decimal _ 0%nat
           (replicate 10 0 ++ replicate 10 1 ++ replicate 20 2 ++ replicate 20 1 ++ [0])).
  - reflexivity.
  - simpl. repeat (constructor; [by eexists _, _|]). constructor.
  - repeat (constructor; [reflexivity|]). constructor.
Defined.

Lemma populateLociCSVDepthField_partial_output_witness :
  populateLociCSVDepthField int_decimal 0%nat
    [["position"]; ["0"]; ["-1"]; ["7"]; ["1"]]
    (state_after (a ← construct [(0, 2)] []; calculateDepth a))
  = (FRaise (Subscript IndexError),
     Some (loci_header :: zip_with locus_line [0; -1] [1; 0])).
Proof.
  apply (populateLociCSVDepthField_partial_output int_decimal _ 0%nat [1; 1; 0]
           _ [0; -1] 7 [1] [1; 0]).
  - reflexivity.
  - simpl. repeat (constructor; [by eexists _, _|]). constructor.
  - repeat (constructor; [reflexivity|]). constructor.
  - right. simpl. lia.
Defined.

Lemma populateLociCSVDepthField_bad_input_witness :
  ∃ e, populateLociCSVDepthField int_decimal 0%nat
         [["position"]; ["0"]; ["seven"]]
         (state_after (a ← construct [(0, 2)] []; calculateDepth a))
       = (FRaise e, None).
Proof.
  apply (populateLociCSVDepthField_bad_input int_decimal).
  simpl. apply Exists_cons_tl, Exists_cons_hd. right. by exists "seven".
Defined.

(** * Recomputing after an append *)

Section recompute.
Implicit Types (st : state) (self : loc) (rs extra : list read) (d : list Z).

Lemma coverage_app rs extra p :
  coverage (rs ++ extra) p = coverage rs p + coverage extra p.
Proof. unfold coverage. rewrite filter_app, length_app. lia. Qed.

Lemma getMaxPosition_app_ge rs extra :
  __getMaxPosition rs ≤ __getMaxPosition (rs ++ extra).
Proof.
  destruct (foldr_max_attained rs 0) as [H0|(pr & Hpr & Hmax)];
    unfold __getMaxPosition at 1; rewrite max_loop_foldr.
  - rewrite H0. apply getMaxPosition_nonneg.
  - rewrite Hmax.
    pose proof (getMaxPosition_ge (rs ++ extra)) as Hge.
    rewrite Forall_forall in Hge. apply Hge, elem_of_app. by left.
Qed.

(** X8.  On an instance whose reads are non-negative and whose profile
    has been computed, appending non-negative reads and running
    [calculateDepth] again adds, at every position, the number of appended
    reads that cover it to the old depth (an old profile that is too short
    counts as [0] beyond its end); the profile never gets shorter. *)
Theorem calculateDepth_after_append_adds st self rs extra :
  reads_of st self = Some rs → Forall nonneg rs → Forall nonneg extra →
  ∃ d d',
    depths_of (calculateDepth self st).2 self = Some d ∧
    depths_of (calculateDepth self
                 (addReads self extra (calculateDepth self st).2).2).2 self = Some d' ∧
    (length d ≤ length d')%nat ∧
    ∀ p, (p < length d')%nat →
         d' !! p = Some (default 0 (d !! p) + coverage extra (Z.of_nat p)).
Proof.
  intros Hrs Hnn Hextra.
  destruct (calculateDepth_nonneg _ _ _ Hrs Hnn) as (st1 & d & Hrun & Hd & Hlen & Hval).
  pose proof (calculateDepth_reads_after _ _ _ Hrs) as Hrs1.
  rewrite Hrun in *. simpl in *.
  destruct (addReads_run st1 self _ extra Hrs1) as (st2 & Hadd & Hrs2).
  rewrite Hadd. simpl.
  assert (Forall nonneg (sort_reads rs ++ extra)) as Hnn2.
  { apply Forall_app. split; [by rewrite sort_reads_Permutation|done]. }
  destruct (calculateDepth_nonneg _ _ _ Hrs2 Hnn2)
    as (st3 & d' & Hrun' & Hd' & Hlen' & Hval').
  rewrite Hrun'. simpl.
  exists d, d'. split; [done|]. split; [done|].
  pose proof (getMaxPosition_app_ge (sort_reads rs) extra) as Hmono.
  rewrite (getMaxPosition_Permutation _ _ (sort_reads_Permutation rs)) in Hmono.
  pose proof (getMaxPosition_nonneg rs) as Hm.
  split; [lia|].
  intros p Hp. rewrite (Hval' p Hp), coverage_app.
  rewrite (coverage_Permutation _ _ _ (sort_reads_Permutation rs)).
  f_equal. f_equal.
  destruct (decide (p < length d)%nat) as [Hin|Hout].
  - by rewrite (Hval p Hin).
  - rewrite (lookup_ge_None_2 d p) by lia. simpl.
    apply coverage_beyond_ends.
    eapply Forall_impl; [apply getMaxPosition_ge|]. simpl. intros pr Hpr. lia.
Qed.

Lemma calculateDepth_after_append_adds_witness :
  ∃ d d',
    depths_of (calculateDepth 0%nat (state_after (construct [(0, 2)] []))).2 0%nat
    = Some d ∧
    depths_of (calculateDepth 0%nat
                 (addReads 0%nat [(1, 3); (1, 0)]
                    (calculateDepth 0%nat
                       (state_after (construct [(0, 2)] []))).2).2).2 0%nat
    = Some d' ∧
    (length d ≤ length d')%nat ∧
    ∀ p, (p < length d')%nat →
         d' !! p = Some (default 0 (d !! p) + coverage [(1, 3); (1, 0)] (Z.of_nat p)).
Proof.
  apply (calculateDepth_after_append_adds _ 0%nat [(0, 2)] [(1, 3); (1, 0)]).
  - reflexivity.
  - apply (bool_decide_unpack _). vm_compute. exact I.
  - apply (bool_decide_unpack _). vm_compute. exact I.
Defined.
End recompute.
